(** * hades-signaling: peer scoring, peer registry and signaling relay

    A shallow embedding of the signaling service:

    - [services/peer-scoring.ts]: [scorePeer], [hasNeededChunks],
      [calculateLatencyScore], [sortPeersByScore];
    - [redis.ts]: the key builders [PEER_KEY] and [PEERS_SET_KEY];
    - [routes/signaling.ts]: the handlers of POST /announce, POST /peers,
      POST /complete, POST /signal and GET /signals/:clientId.

    JavaScript numbers that the service treats as integers (chunk indices,
    upCap, rttHint, timestamps, TTLs) are integers of [Z]; scores are
    rationals of [Q] (a score the code computes from an integer upCap below
    2^53 is a multiple of 2^-20 and is exact in double precision).  The Redis
    server is modelled by finite maps with remaining times-to-live in
    seconds; a handler runs against it without interleaving and without
    connection failures. *)

From Stdlib Require Import ZArith QArith Qminmax Lia Lqa.
From Stdlib Require Import String Ascii List Sorted Permutation.
From stdpp Require Import base option list sorting strings pretty gmap.

#[local] Open Scope Z_scope.

(** ** JavaScript primitives used by the service *)

(** Truthiness of an optional string: [undefined] and the empty string are
    falsy. *)
Definition truthy_str (s : option string) : bool :=
  match s with
  | Some (String _ _) => true
  | _ => false
  end.

(** [x || d] on an optional number: [undefined] and [0] are falsy. *)
Definition or_num (x : option Z) (d : Z) : Z :=
  match x with
  | Some v => if v =? 0 then d else v
  | None => d
  end.

(** ToInt32: wrap an integer into the signed 32-bit range. *)
Definition to_int32 (x : Z) : Z := (x + 2 ^ 31) mod 2 ^ 32 - 2 ^ 31.

(** [a << n]: the shift count is taken modulo 32, the result is an int32. *)
Definition js_shl (a n : Z) : Z := to_int32 (Z.shiftl (to_int32 a) (Z.land n 31)).

(** [a & b] where [a] may be [undefined] (ToInt32 of [undefined] is 0). *)
Definition js_and (a : option Z) (b : Z) : Z :=
  Z.land (to_int32 (default 0 a)) (to_int32 b).

(** [arr[i]] on a typed array: [undefined] outside [0 .. length-1]. *)
Definition js_index (arr : list Z) (i : Z) : option Z :=
  if i <? 0 then None else arr !! Z.to_nat i.

(** ** Buffer.from(s, 'hex') *)

(** Value of a hexadecimal digit. *)
Definition unhex (c : ascii) : option Z :=
  let n := Z.of_N (N_of_ascii c) in
  if (48 <=? n) && (n <=? 57) then Some (n - 48)
  else if (97 <=? n) && (n <=? 102) then Some (n - 87)
  else if (65 <=? n) && (n <=? 70) then Some (n - 55)
  else None.

(** Node decodes pairs of hexadecimal digits and stops at the first pair
    that is not one; a trailing single character is dropped. *)
Fixpoint buffer_from_hex (s : string) : list Z :=
  match s with
  | String a (String b rest) =>
      match unhex a, unhex b with
      | Some h, Some l => (16 * h + l) :: buffer_from_hex rest
      | _, _ => []
      end
  | _ => []
  end.

(** ** services/peer-scoring.ts *)

Record PeerData := mkPeerData {
  peerId : string;
  manifestId : string;
  chunkBitfield : string;
  upCap : Z;
  region : option string;
  rttHint : option Z;
  version : option string;
  lastSeen : Z;
  isComplete : bool
}.

Record PeerScore := mkPeerScore {
  ps_peerId : string;
  ps_score : Q;
  ps_factors : list (string * Q);
  ps_hasNeeded : bool
}.

(** The [for] loop of [hasNeededChunks] over the decoded bytes. *)
Fixpoint hasNeededLoop (bytes : list Z) (neededChunks : list Z) : bool :=
  match neededChunks with
  | [] => false
  | chunkIndex :: rest =>
      let byteIndex := chunkIndex / 8 in
      let bitIndex := Z.rem chunkIndex 8 in
      if byteIndex <? Z.of_nat (length bytes) then
        let byte := js_index bytes byteIndex in
        let hasBit := negb (js_and byte (js_shl 1 bitIndex) =? 0) in
        if hasBit then true else hasNeededLoop bytes rest
      else hasNeededLoop bytes rest
  end.

Definition hasNeededChunks (bitfield : string) (neededChunks : list Z) : bool :=
  if negb (truthy_str (Some bitfield)) || (length neededChunks =? 0)%nat
  then false
  else hasNeededLoop (buffer_from_hex bitfield) neededChunks.

Definition calculateLatencyScore (rtt : Z) : Q :=
  if rtt <? 50 then 30%Q
  else if rtt <? 100 then 20%Q
  else if rtt <? 200 then 10%Q
  else 5%Q.

Definition regionScore (peer : PeerData) (requesterRegion : option string) : Q :=
  if truthy_str requesterRegion && bool_decide (region peer = requesterRegion)
  then 30%Q
  else if truthy_str (region peer) then 10%Q else 0%Q.

Definition capacityScore (peer : PeerData) : Q :=
  Qmin (inject_Z (or_num (Some (upCap peer)) 0) / 1024 / 1024) 20.

Definition scorePeer (peer : PeerData) (neededChunks : list Z)
    (requesterRegion : option string) : PeerScore :=
  let score := 0%Q in
  let hasNeeded := hasNeededChunks (chunkBitfield peer) neededChunks in
  let neededScore := if hasNeeded then 100%Q else 0%Q in
  let score := (score + neededScore)%Q in
  let regionScore := regionScore peer requesterRegion in
  let score := (score + regionScore)%Q in
  let latencyScore := calculateLatencyScore (or_num (rttHint peer) 999) in
  let score := (score + latencyScore)%Q in
  let capacityScore := capacityScore peer in
  let score := (score + capacityScore)%Q in
  let completionScore := if isComplete peer then 20%Q else 0%Q in
  let score := (score + completionScore)%Q in
  {| ps_peerId := peerId peer;
     ps_score := score;
     ps_factors := [("hasNeeded"%string, neededScore);
                    ("region"%string, regionScore);
                    ("latency"%string, latencyScore);
                    ("capacity"%string, capacityScore);
                    ("completion"%string, completionScore)];
     ps_hasNeeded := hasNeeded |}.

(** [scores.sort((a, b) => b.score - a.score)]: the engine's sort is stable,
    so the result is the stable arrangement by non-increasing score. *)
Fixpoint insertByScore (x : PeerScore) (l : list PeerScore) : list PeerScore :=
  match l with
  | [] => [x]
  | y :: l' =>
      if Qle_bool (ps_score y) (ps_score x) then x :: y :: l'
      else y :: insertByScore x l'
  end.

Definition sortPeersByScore (scores : list PeerScore) : list PeerScore :=
  foldr insertByScore [] scores.

(** A record with another [rttHint], respectively another [upCap]. *)
Definition setRttHint (peer : PeerData) (r : option Z) : PeerData :=
  {| peerId := peerId peer; manifestId := manifestId peer;
     chunkBitfield := chunkBitfield peer; upCap := upCap peer;
     region := region peer; rttHint := r; version := version peer;
     lastSeen := lastSeen peer; isComplete := isComplete peer |}.

Definition setUpCap (peer : PeerData) (u : Z) : PeerData :=
  {| peerId := peerId peer; manifestId := manifestId peer;
     chunkBitfield := chunkBitfield peer; upCap := u;
     region := region peer; rttHint := rttHint peer; version := version peer;
     lastSeen := lastSeen peer; isComplete := isComplete peer |}.

(** Sum of the values of a factor breakdown. *)
Definition sumFactors (factors : list (string * Q)) : Q :=
  foldr (fun kv acc => (kv.2 + acc)%Q) 0%Q factors.

(** ** The Redis server

    Redis is an external collaborator.  Its string values hold the JSON text
    of a [PeerData] record (keys [peer:...]) or of a signal (keys
    [signal:...]); [JSON.parse (JSON.stringify x)] gives back the fields of
    [x], so a value is kept as the record it encodes.  The two families of
    keys and the set keys [peers:...] start with different literal prefixes,
    and every access of the service goes through such a prefix, so the key
    space is kept as three maps, each indexed by the full key.  Expiry is
    kept as the remaining time-to-live in seconds, the unit of SETEX, EXPIRE
    and TTL. *)

(** Sender of a signal: [req.user?.userId || req.user?.username || 'unknown']
    is a number or a string. *)
Inductive Sender :=
  | FromId (id : Z)
  | FromName (name : string).

Record SignalMessage := mkSignalMessage {
  sm_type : string;
  sm_from : Sender;
  sm_to : string;
  sm_data : option string;
  sm_timestamp : Z
}.

Record Store := mkStore {
  peerKeys : gmap string (PeerData * Z);
  signalKeys : gmap string (SignalMessage * Z);
  setKeys : gmap string (list string * option Z)
}.

Definition emptyStore : Store := mkStore ∅ ∅ ∅.

(** *** Glob patterns of KEYS (Redis [stringmatchlen], case sensitive) *)

Fixpoint all_stars (p : string) : bool :=
  match p with
  | EmptyString => true
  | String a p' => Ascii.eqb a "*" && all_stars p'
  end.

Definition in_range (a b c : ascii) : bool :=
  let a := N_of_ascii a in
  let b := N_of_ascii b in
  let c := N_of_ascii c in
  ((N.min a b <=? c) && (c <=? N.max a b))%N.

(** Matching once the subject has at least been entered: when the subject
    is used up, only stars may remain in the pattern. *)
Fixpoint glob (p : string) (s : string) {struct p} : bool :=
  match s with
  | EmptyString => all_stars p
  | String c s' =>
      match p with
      | EmptyString => false
      | String x p' =>
          if Ascii.eqb x "*" then
            if all_stars p' then true
            else (fix try (t : string) : bool :=
                    match t with
                    | EmptyString => false
                    | String _ t' => glob p' t || try t'
                    end) s
          else if Ascii.eqb x "?" then glob p' s'
          else if Ascii.eqb x "[" then
            let neg := match p' with
                       | String y _ => Ascii.eqb y "^"
                       | EmptyString => false
                       end in
            let body := match p' with
                        | String y q => if Ascii.eqb y "^" then q else p'
                        | EmptyString => p'
                        end in
            (fix class (q : string) (m : bool) {struct q} : bool :=
               match q with
               | EmptyString => xorb neg m && bool_decide (s' = EmptyString)
               | String a q1 =>
                   match q1 with
                   | String b q2 =>
                       if Ascii.eqb a "\" then class q2 (m || Ascii.eqb b c)
                       else if Ascii.eqb a "]" then xorb neg m && glob q1 s'
                       else if Ascii.eqb b "-" then
                         match q2 with
                         | String e q3 => class q3 (m || in_range a e c)
                         | EmptyString => class q1 (m || Ascii.eqb a c)
                         end
                       else class q1 (m || Ascii.eqb a c)
                   | EmptyString =>
                       if Ascii.eqb a "]" then xorb neg m && glob q1 s'
                       else class q1 (m || Ascii.eqb a c)
                   end
               end) body false
          else if Ascii.eqb x "\" then
            match p' with
            | String y p'' => Ascii.eqb y c && glob p'' s'
            | EmptyString => Ascii.eqb x c && glob p' s'
            end
          else Ascii.eqb x c && glob p' s'
      end
  end.

(** An empty subject is matched by the empty pattern only. *)
Definition stringmatch (pattern key : string) : bool :=
  match key with
  | EmptyString => bool_decide (pattern = EmptyString)
  | _ => glob pattern key
  end.

(** *** String keys: SETEX, GET, DEL, KEYS *)

Section redis_strings.
Context {V : Type}.
Implicit Types m : gmap string (V * Z).

(** SETEX refuses an expire time that is not positive. *)
Definition redis_setex m (key : string) (seconds : Z) (value : V)
    : option (gmap string (V * Z)) :=
  if 0 <? seconds then Some (<[key := (value, seconds)]> m) else None.

Definition redis_get m (key : string) : option V := fst <$> m !! key.

Definition redis_del m (key : string) : gmap string (V * Z) := delete key m.

Definition redis_keys m (pattern : string) : list string :=
  filter (fun key => Is_true (stringmatch pattern key)) (map_to_list m).*1.

(** [d] seconds go by: expired keys disappear. *)
Definition redis_elapse m (d : Z) : gmap string (V * Z) :=
  omap (fun e => if 0 <? e.2 - d then Some (e.1, e.2 - d) else None) m.

End redis_strings.

(** *** Set keys: SADD, SMEMBERS, SREM, TTL, EXPIRE *)

Section redis_sets.
Implicit Types m : gmap string (list string * option Z).

Definition redis_sadd m (key member : string) :=
  match m !! key with
  | None => <[key := ([member], None)]> m
  | Some (members, e) =>
      if decide (member ∈ members) then m
      else <[key := (members ++ [member], e)]> m
  end.

Definition redis_smembers m (key : string) : list string :=
  match m !! key with
  | Some (members, _) => members
  | None => []
  end.

(** A set that becomes empty is removed. *)
Definition redis_srem m (key member : string) :=
  match m !! key with
  | None => m
  | Some (members, e) =>
      match filter (fun x => x ≠ member) members with
      | [] => delete key m
      | members' => <[key := (members', e)]> m
      end
  end.

(** TTL: -2 without the key, -1 without an expiry. *)
Definition redis_ttl m (key : string) : Z :=
  match m !! key with
  | None => -2
  | Some (_, None) => -1
  | Some (_, Some r) => r
  end.

Definition redis_expire m (key : string) (seconds : Z) :=
  match m !! key with
  | None => m
  | Some (members, _) =>
      if 0 <? seconds then <[key := (members, Some seconds)]> m
      else delete key m
  end.

(** [d] seconds go by: a set whose expiry runs out disappears. *)
Definition redis_elapse_sets m (d : Z) : gmap string (list string * option Z) :=
  omap (fun e : list string * option Z =>
          match e.2 with
          | Some r => if 0 <? r - d then Some (e.1, Some (r - d)) else None
          | None => Some e
          end) m.

End redis_sets.

(** [d] seconds go by on the whole server. *)
Definition elapse (d : Z) (st : Store) : Store :=
  {| peerKeys := redis_elapse (peerKeys st) d;
     signalKeys := redis_elapse (signalKeys st) d;
     setKeys := redis_elapse_sets (setKeys st) d |}.

(** ** redis.ts: key patterns *)

Definition PEER_KEY (manifestId peerId : string) : string :=
  "peer:" +:+ manifestId +:+ ":" +:+ peerId.

Definition PEERS_SET_KEY (manifestId : string) : string :=
  "peers:" +:+ manifestId.

(** ** routes/signaling.ts *)

(** [arr.slice(0, n)]: a negative [n] counts from the end. *)
Definition js_slice0 {A} (arr : list A) (n : Z) : list A :=
  if n <? 0 then take (Z.to_nat (Z.of_nat (length arr) + n)) arr
  else take (Z.to_nat n) arr.

(** The 4xx/5xx answers of the handlers: 400, 404 and 500. *)
Inductive Error := InvalidRequest | NotFound | InternalError.

Definition Result (A : Type) : Type := Error + A.

Record AnnounceRequest := mkAnnounceRequest {
  ar_clientId : option string;
  ar_manifestId : option string;
  ar_chunkBitfield : option string;
  ar_upCap : option Z;
  ar_region : option string;
  ar_rttHint : option Z;
  ar_version : option string
}.

Record AnnounceResponse := mkAnnounceResponse {
  an_success : bool;
  an_peerId : string;
  an_ttl : Z
}.

Record GetPeersRequest := mkGetPeersRequest {
  gp_manifestId : option string;
  gp_neededChunks : option (list Z);
  gp_region : option string;
  gp_excludePeers : option (list string)
}.

Record PeerInfo := mkPeerInfo {
  pi_peerId : string;
  pi_chunkBitfield : string;
  pi_region : option string;
  pi_score : Q
}.

Record GetPeersResponse := mkGetPeersResponse {
  peers : list PeerInfo;
  count : nat
}.

Record CompleteRequest := mkCompleteRequest {
  cr_clientId : option string;
  cr_manifestId : option string
}.

(** [req.user] as the authentication middleware leaves it. *)
Record User := mkUser {
  userId : Z;
  username : string
}.

(** Body of POST /signal; the payload travels in the field [data]. *)
Record SignalRequest := mkSignalRequest {
  sg_type : option string;
  sg_to : option string;
  sg_data : option string
}.

Definition withPeerKeys (st : Store) (pk : gmap string (PeerData * Z)) : Store :=
  {| peerKeys := pk; signalKeys := signalKeys st; setKeys := setKeys st |}.

Definition withSignalKeys (st : Store) (sk : gmap string (SignalMessage * Z)) : Store :=
  {| peerKeys := peerKeys st; signalKeys := sk; setKeys := setKeys st |}.

Definition withSetKeys (st : Store) (sets : gmap string (list string * option Z)) : Store :=
  {| peerKeys := peerKeys st; signalKeys := signalKeys st; setKeys := sets |}.

(** [req.user?.userId || req.user?.username || 'unknown'] *)
Definition senderOf (user : option User) : Sender :=
  match user with
  | Some u =>
      if userId u =? 0 then
        if truthy_str (Some (username u)) then FromName (username u)
        else FromName "unknown"
      else FromId (userId u)
  | None => FromName "unknown"
  end.

(** A sender inside a template string. *)
Definition renderSender (from : Sender) : string :=
  match from with
  | FromId id => pretty id
  | FromName name => name
  end.

(** [`signal:${to}:${from}:${Date.now()}`] *)
Definition signalKey (to : string) (from : Sender) (now : Z) : string :=
  "signal:" +:+ to +:+ ":" +:+ renderSender from +:+ ":" +:+ pretty now.

(** [`signal:${clientId}:*`] *)
Definition signalPattern (clientId : string) : string :=
  "signal:" +:+ clientId +:+ ":*".

Definition signalTypes : list string := ["offer"; "answer"; "ice-candidate"]%string.

Section handlers.

(** Configuration read from the environment, 300 and 6 by default. *)
Variable PEER_TTL : Z.
Variable MAX_PEERS_RESPONSE : Z.

(** POST /announce: the validation of the body. *)
Definition announceValid (req : AnnounceRequest) : bool :=
  truthy_str (ar_clientId req) && truthy_str (ar_manifestId req)
  && truthy_str (ar_chunkBitfield req).

(** The record POST /announce writes. *)
Definition announcedPeer (now : Z) (req : AnnounceRequest) : PeerData :=
  {| peerId := default "" (ar_clientId req);
     manifestId := default "" (ar_manifestId req);
     chunkBitfield := default "" (ar_chunkBitfield req);
     upCap := or_num (ar_upCap req) 0;
     region := ar_region req;
     rttHint := ar_rttHint req;
     version := ar_version req;
     lastSeen := now;
     isComplete := false |}.

(** POST /announce; [now] is the reading of [Date.now()]. *)
Definition announce (now : Z) (req : AnnounceRequest) (st : Store)
    : Result AnnounceResponse * Store :=
  if negb (announceValid req) then (inl InvalidRequest, st)
  else
    let peerData := announcedPeer now req in
    let peerKey := PEER_KEY (manifestId peerData) (peerId peerData) in
    let peersSetKey := PEERS_SET_KEY (manifestId peerData) in
    match redis_setex (peerKeys st) peerKey PEER_TTL peerData with
    | None => (inl InternalError, st)
    | Some pk =>
        let sets := redis_sadd (setKeys st) peersSetKey (peerId peerData) in
        let currentTTL := redis_ttl sets peersSetKey in
        let newTTL := PEER_TTL in
        let sets :=
          if (currentTTL =? -1) || (currentTTL <? newTTL)
          then redis_expire sets peersSetKey newTTL
          else sets in
        (inr {| an_success := true; an_peerId := peerId peerData; an_ttl := PEER_TTL |},
         {| peerKeys := pk; signalKeys := signalKeys st; setKeys := sets |})
    end.

(** POST /peers: fetch the records of the candidates; a member without a
    record is removed from the set. *)
Definition fetchPeer (st : Store) (manifestId : string)
    (acc : list PeerData * gmap string (list string * option Z)) (peerId : string)
    : list PeerData * gmap string (list string * option Z) :=
  match redis_get (peerKeys st) (PEER_KEY manifestId peerId) with
  | Some data => (acc.1 ++ [data], acc.2)
  | None => (acc.1, redis_srem acc.2 (PEERS_SET_KEY manifestId) peerId)
  end.

Definition fetchPeers (st : Store) (manifestId : string) (peerIds : list string)
    : list PeerData * gmap string (list string * option Z) :=
  foldl (fetchPeer st manifestId) ([], setKeys st) peerIds.

(** POST /peers: the descriptor of a selected peer; [find] fails on a score
    whose peerId names no fetched record. *)
Definition peerInfo (peersData : list PeerData) (scored : PeerScore) : option PeerInfo :=
  match List.find (fun p => bool_decide (peerId p = ps_peerId scored)) peersData with
  | Some peer =>
      Some {| pi_peerId := peerId peer;
              pi_chunkBitfield := chunkBitfield peer;
              pi_region := region peer;
              pi_score := ps_score scored |}
  | None => None
  end.

(** POST /peers *)
Definition getPeers (req : GetPeersRequest) (st : Store)
    : Result GetPeersResponse * Store :=
  match gp_neededChunks req with
  | Some neededChunks =>
      if negb (truthy_str (gp_manifestId req)) then (inl InvalidRequest, st)
      else
        let manifestId := default "" (gp_manifestId req) in
        let excludePeers := default [] (gp_excludePeers req) in
        let peersSetKey := PEERS_SET_KEY manifestId in
        let peerIds := redis_smembers (setKeys st) peersSetKey in
        if (length peerIds =? 0)%nat
        then (inr {| peers := []; count := 0 |}, st)
        else
          let candidates :=
            filter (fun pid => pid ∉ excludePeers) peerIds in
          let fetched := fetchPeers st manifestId candidates in
          let peersData := fetched.1 in
          let st' := withSetKeys st fetched.2 in
          let scores :=
            map (fun peer => scorePeer peer neededChunks (gp_region req)) peersData in
          let sortedScores := sortPeersByScore scores in
          let topPeers := js_slice0 sortedScores MAX_PEERS_RESPONSE in
          match mapM (peerInfo peersData) topPeers with
          | Some peers => (inr {| peers := peers; count := length peers |}, st')
          | None => (inl InternalError, st')
          end
  | None => (inl InvalidRequest, st)
  end.

(** POST /complete after its validation: the update of the record. *)
Definition markComplete (now : Z) (mid pid : string) (st : Store)
    : Result bool * Store :=
  let peerKey := PEER_KEY mid pid in
  match redis_get (peerKeys st) peerKey with
  | None => (inl NotFound, st)
  | Some data =>
      let peerData :=
        {| peerId := peerId data;
           manifestId := manifestId data;
           chunkBitfield := chunkBitfield data;
           upCap := upCap data;
           region := region data;
           rttHint := rttHint data;
           version := version data;
           lastSeen := now;
           isComplete := true |} in
      match redis_setex (peerKeys st) peerKey PEER_TTL peerData with
      | None => (inl InternalError, st)
      | Some pk => (inr true, withPeerKeys st pk)
      end
  end.

(** POST /complete *)
Definition complete (now : Z) (req : CompleteRequest) (st : Store)
    : Result bool * Store :=
  if negb (truthy_str (cr_clientId req)) || negb (truthy_str (cr_manifestId req))
  then (inl InvalidRequest, st)
  else markComplete now (default "" (cr_manifestId req))
         (default "" (cr_clientId req)) st.

End handlers.

(** POST /signal; [tKey] and [tMsg] are the two readings of [Date.now()],
    for the key and for the message. *)
Definition signal (user : option User) (tKey tMsg : Z) (req : SignalRequest)
    (st : Store) : Result bool * Store :=
  let from := senderOf user in
  if negb (truthy_str (sg_type req)) || negb (truthy_str (sg_to req))
  then (inl InvalidRequest, st)
  else
    let type := default "" (sg_type req) in
    let to := default "" (sg_to req) in
    if negb (bool_decide (type ∈ signalTypes)) then (inl InvalidRequest, st)
    else
      let key := signalKey to from tKey in
      let message :=
        {| sm_type := type; sm_from := from; sm_to := to;
           sm_data := sg_data req; sm_timestamp := tMsg |} in
      match redis_setex (signalKeys st) key 30 message with
      | None => (inl InternalError, st)
      | Some sk => (inr true, withSignalKeys st sk)
      end.

(** GET /signals/:clientId: one turn of the loop over the matching keys. *)
Definition drainKey (acc : list SignalMessage * gmap string (SignalMessage * Z))
    (key : string) : list SignalMessage * gmap string (SignalMessage * Z) :=
  match redis_get acc.2 key with
  | Some signalData => (acc.1 ++ [signalData], redis_del acc.2 key)
  | None => acc
  end.

(** GET /signals/:clientId *)
Definition getSignals (clientId : string) (st : Store)
    : Result (list SignalMessage) * Store :=
  if negb (truthy_str (Some clientId)) then (inl InvalidRequest, st)
  else
    let pattern := signalPattern clientId in
    let keys := redis_keys (signalKeys st) pattern in
    let drained := foldl drainKey ([], signalKeys st) keys in
    (inr drained.1, withSignalKeys st drained.2).

(** ** redis.ts: the periodic cleanup *)

(** [s.split(c)] for a separator of one character: the pieces between its
    occurrences. *)
Fixpoint js_split (c : ascii) (s : string) : list string :=
  match s with
  | EmptyString => [EmptyString]
  | String a s' =>
      if Ascii.eqb a c then EmptyString :: js_split c s'
      else match js_split c s' with
           | piece :: pieces => String a piece :: pieces
           | [] => [String a EmptyString]
           end
  end.

(** KEYS on the set keys. *)
Definition redis_keys_sets (m : gmap string (list string * option Z))
    (pattern : string) : list string :=
  filter (fun key => Is_true (stringmatch pattern key)) (map_to_list m).*1.

(** EXISTS *)
Definition redis_exists {V} (m : gmap string (V * Z)) (key : string) : bool :=
  bool_decide (is_Some (m !! key)).

(** [setKey.split(':')[1]] inside the template of the key; a missing piece
    prints as [undefined]. *)
Definition manifestOfSetKey (setKey : string) : string :=
  default "undefined" (js_split ":" setKey !! 1%nat).

(** One turn of the inner loop of [cleanupExpiredPeers]. *)
Definition cleanupMember (st : Store) (setKey : string)
    (sets : gmap string (list string * option Z)) (peerId : string)
    : gmap string (list string * option Z) :=
  let manifestId := manifestOfSetKey setKey in
  let peerKey := PEER_KEY manifestId peerId in
  let exists_ := redis_exists (peerKeys st) peerKey in
  if negb exists_ then redis_srem sets setKey peerId else sets.

(** One turn of the outer loop: the members are read, then checked. *)
Definition cleanupSet (st : Store) (sets : gmap string (list string * option Z))
    (setKey : string) : gmap string (list string * option Z) :=
  let members := redis_smembers sets setKey in
  foldl (cleanupMember st setKey) sets members.

Definition cleanupExpiredPeers (st : Store) : Store :=
  let pattern := "peers:*" in
  let keys := redis_keys_sets (setKeys st) pattern in
  withSetKeys st (foldl (cleanupSet st) (setKeys st) keys).

(** ** middleware/auth.ts *)

(** What [jwt.verify] does: it returns the payload or throws. *)
Inductive VerifyResult :=
  | Verified (payload : User)
  | TokenExpiredError
  | OtherVerifyError.

(** What the middleware does with a request: it hands it on with
    [req.user] set, or answers with a status and an error text. *)
Inductive AuthOutcome :=
  | Next (user : User)
  | Respond (status : Z) (error : string).

(** [getJWTSecret]: [None] stands for the thrown error. Lengths are counted
    in characters of the string as it is kept here. *)
Definition getJWTSecret (JWT_SECRET : option string) : option string :=
  match JWT_SECRET with
  | Some secret =>
      if negb (truthy_str (Some secret)) || (String.length secret <? 32)%nat
      then None else Some secret
  | None => None
  end.

Section auth.

(** [jwt.verify] of the jsonwebtoken library. *)
Variable jwt_verify : string -> string -> VerifyResult.

Definition authenticateToken (JWT_SECRET : option string)
    (authHeader : option string) : AuthOutcome :=
  let token :=
    if truthy_str authHeader
    then js_split " " (default "" authHeader) !! 1%nat
    else authHeader in
  if negb (truthy_str token) then Respond 401 "No token provided"
  else
    match getJWTSecret JWT_SECRET with
    | Some secret =>
        match jwt_verify (default "" token) secret with
        | Verified decoded => Next decoded
        | TokenExpiredError => Respond 403 "Token expired"
        | OtherVerifyError => Respond 403 "Invalid token"
        end
    | None => Respond 403 "Invalid token"
    end.

End auth.

(** ** Notions used by the statements *)

(** Order of a ranked list: no later entry has a higher score. *)
Definition scoreGe (a b : Q) : Prop := (b <= a)%Q.

(** Under the keys of manifest [mid], every record carries the peerId of its
    key, as POST /announce writes it. *)
Definition recordsConsistent (st : Store) (mid : string) : Prop :=
  forall pid data,
    redis_get (peerKeys st) (PEER_KEY mid pid) = Some data -> peerId data = pid.

(** Members and expiry of a manifest's set after an announce of [pid], from
    the entry [old] of the set before it: the member is added once, and the
    expiry becomes the larger of the current one and the new TTL. *)
Definition membersAfter (old : option (list string * option Z)) (pid : string)
    : list string :=
  match old with
  | Some (members, _) =>
      if decide (pid ∈ members) then members else members ++ [pid]
  | None => [pid]
  end.

Definition expiryAfter (old : option (list string * option Z)) (ttl : Z) : Z :=
  match old with
  | Some (_, Some current) => Z.max current ttl
  | _ => ttl
  end.

(** Occurrence of a character in a string, and strings without any of the
    characters that are special in a glob pattern. *)
Fixpoint hasChar (c : ascii) (s : string) : bool :=
  match s with
  | EmptyString => false
  | String a s' => Ascii.eqb a c || hasChar c s'
  end.

Definition globFree (s : string) : bool :=
  negb (hasChar "*" s || hasChar "?" s || hasChar "[" s || hasChar "\" s).

(** The message POST /signal stores for a request. *)
Definition signalMessage (user : option User) (tMsg : Z) (req : SignalRequest)
    : SignalMessage :=
  {| sm_type := default "" (sg_type req);
     sm_from := senderOf user;
     sm_to := default "" (sg_to req);
     sm_data := sg_data req;
     sm_timestamp := tMsg |}.

(** The requests POST /signal answers with 400. *)
Definition signalInvalid (req : SignalRequest) : Prop :=
  truthy_str (sg_type req) = false
  \/ truthy_str (sg_to req) = false
  \/ default "" (sg_type req) ∉ signalTypes.

(** Every set has an expiry. *)
Definition setsExpire (st : Store) : Prop :=
  forall key members e, setKeys st !! key = Some (members, e) -> is_Some e.

(** Every record lies under the key of its own manifestId and peerId, and
    its manifestId has no colon. *)
Definition storeConsistent (st : Store) : Prop :=
  forall key data ttl,
    peerKeys st !! key = Some (data, ttl) ->
    key = PEER_KEY (manifestId data) (peerId data)
    /\ hasChar ":" (manifestId data) = false.

(** The stores the service reaches from the empty one when every announced
    manifestId is free of colons. *)
Inductive reachable (PEER_TTL MAX_PEERS_RESPONSE : Z) : Store -> Prop :=
  | reach_empty : reachable PEER_TTL MAX_PEERS_RESPONSE emptyStore
  | reach_announce now req st :
      reachable PEER_TTL MAX_PEERS_RESPONSE st ->
      hasChar ":" (default "" (ar_manifestId req)) = false ->
      reachable PEER_TTL MAX_PEERS_RESPONSE (announce PEER_TTL now req st).2
  | reach_getPeers req st :
      reachable PEER_TTL MAX_PEERS_RESPONSE st ->
      reachable PEER_TTL MAX_PEERS_RESPONSE (getPeers MAX_PEERS_RESPONSE req st).2
  | reach_complete now req st :
      reachable PEER_TTL MAX_PEERS_RESPONSE st ->
      reachable PEER_TTL MAX_PEERS_RESPONSE (complete PEER_TTL now req st).2
  | reach_signal user tKey tMsg req st :
      reachable PEER_TTL MAX_PEERS_RESPONSE st ->
      reachable PEER_TTL MAX_PEERS_RESPONSE (signal user tKey tMsg req st).2
  | reach_getSignals clientId st :
      reachable PEER_TTL MAX_PEERS_RESPONSE st ->
      reachable PEER_TTL MAX_PEERS_RESPONSE (getSignals clientId st).2
  | reach_elapse d st :
      reachable PEER_TTL MAX_PEERS_RESPONSE st ->
      reachable PEER_TTL MAX_PEERS_RESPONSE (elapse d st).

(** * Properties *)

(** ** Bit test of [hasNeededChunks] *)

Lemma to_int32_small (x : Z) : -2 ^ 31 <= x < 2 ^ 31 -> to_int32 x = x.
Proof.
  intros H. unfold to_int32.
  rewrite Z.mod_small by lia. lia.
Qed.

Lemma land_pow2 (b k : Z) :
  0 <= k -> Z.land b (2 ^ k) = if Z.testbit b k then 2 ^ k else 0.
Proof.
  intros Hk. apply Z.bits_inj'. intros n Hn.
  rewrite Z.land_spec, Z.pow2_bits_eqb by lia.
  destruct (Z.eqb_spec k n) as [->|Hne].
  - destruct (Z.testbit b n); simpl.
    + rewrite Z.pow2_bits_eqb by lia. now rewrite Z.eqb_refl.
    + now rewrite Z.bits_0.
  - rewrite andb_false_r.
    destruct (Z.testbit b k).
    + rewrite Z.pow2_bits_eqb by lia.
      symmetry. now apply Z.eqb_neq.
    + now rewrite Z.bits_0.
Qed.

Lemma js_shl_one (k : Z) : 0 <= k < 8 -> js_shl 1 k = 2 ^ k.
Proof.
  intros H.
  assert (k = 0 \/ k = 1 \/ k = 2 \/ k = 3 \/ k = 4 \/ k = 5 \/ k = 6 \/ k = 7)
    as Hk by lia.
  destruct Hk as [->|[->|[->|[->|[->|[->|[->| ->]]]]]]]; reflexivity.
Qed.

Lemma unhex_range (c : ascii) (v : Z) : unhex c = Some v -> 0 <= v < 16.
Proof.
  unfold unhex. intros H.
  repeat match type of H with
         | (if ?b then _ else _) = _ => destruct b eqn:?
         end; inversion H; subst; lia.
Qed.

Lemma buffer_from_hex_range (s : string) (i : nat) (byte : Z) :
  buffer_from_hex s !! i = Some byte -> 0 <= byte < 256.
Proof.
  enough (forall s,
    (forall i, buffer_from_hex s !! i = Some byte -> 0 <= byte < 256) /\
    (forall a i, buffer_from_hex (String a s) !! i = Some byte -> 0 <= byte < 256))
    as H by apply H.
  clear s i. induction s as [|b rest [IH1 IH2]]; split; try discriminate.
  - intros i. apply IH2.
  - intros a i H. simpl in H.
    destruct (unhex a) as [h|] eqn:Ha; [|discriminate].
    destruct (unhex b) as [l|] eqn:Hb; [|discriminate].
    destruct i as [|i]; simpl in H.
    + inversion H; subst.
      apply unhex_range in Ha. apply unhex_range in Hb. lia.
    + now apply IH1 in H.
Qed.

(** The mask test of the loop is the bit test, on a byte and a bit index. *)
Lemma hasBit_testbit (byte k : Z) :
  0 <= byte < 256 -> 0 <= k < 8 ->
  negb (js_and (Some byte) (js_shl 1 k) =? 0) = Z.testbit byte k.
Proof.
  intros Hb Hk. rewrite js_shl_one by assumption.
  unfold js_and; simpl.
  assert (0 < 2 ^ k <= 2 ^ 7) as Hp.
  { split; [apply Z.pow_pos_nonneg; lia | apply Z.pow_le_mono_r; lia]. }
  rewrite !to_int32_small by (simpl in *; lia).
  rewrite land_pow2 by lia.
  destruct (Z.testbit byte k); [|reflexivity].
  apply negb_true_iff, Z.eqb_neq. lia.
Qed.

Lemma js_index_Some (arr : list Z) (i v : Z) :
  js_index arr i = Some v <-> 0 <= i /\ arr !! Z.to_nat i = Some v.
Proof.
  unfold js_index. destruct (Z.ltb_spec i 0); split.
  - discriminate.
  - intros [? _]; lia.
  - auto.
  - now intros [_ ?].
Qed.

Lemma hasNeededLoop_single (bytes : list Z) (c : Z) :
  (forall i byte, bytes !! i = Some byte -> 0 <= byte < 256) ->
  hasNeededLoop bytes [c] =
    match js_index bytes (c / 8) with
    | Some byte => Z.testbit byte (c mod 8)
    | None => false
    end.
Proof.
  intros Hrange. simpl.
  destruct (js_index bytes (c / 8)) as [byte|] eqn:Hidx.
  - apply js_index_Some in Hidx as [Hpos Hlk].
    assert (c / 8 < Z.of_nat (length bytes)) as Hlt.
    { apply lookup_lt_Some in Hlk. lia. }
    assert (0 <= c) as Hc.
    { destruct (Z.le_gt_cases 0 c) as [|Hneg]; [assumption|].
      assert (c / 8 < 0) by (apply Z.div_lt_upper_bound; lia). lia. }
    destruct (Z.ltb_spec (c / 8) (Z.of_nat (length bytes))); [|lia].
    rewrite Z.rem_mod_nonneg by lia.
    rewrite hasBit_testbit.
    + now destruct (Z.testbit byte (c mod 8)).
    + eapply Hrange, Hlk.
    + apply Z.mod_pos_bound. lia.
  - destruct (c / 8 <? Z.of_nat (length bytes)); reflexivity.
Qed.

(** C1. For every bitfield string [b] and every integer chunk index [c],
    [hasNeededChunks b [c]] is true exactly when the byte at index
    [floor (c / 8)] of the decoded bitfield exists and has bit [c mod 8] set
    (bit 0 being the least significant one), and it is false whenever
    [floor (c / 8)] is at least the number of decoded bytes. *)
Theorem hasNeededChunks_single (b : string) (c : Z) :
  (hasNeededChunks b [c] = true <->
     exists byte, js_index (buffer_from_hex b) (c / 8) = Some byte
                  /\ Z.testbit byte (c mod 8) = true)
  /\ (Z.of_nat (length (buffer_from_hex b)) <= c / 8 ->
      hasNeededChunks b [c] = false).
Proof.
  assert (hasNeededChunks b [c] =
          match js_index (buffer_from_hex b) (c / 8) with
          | Some byte => Z.testbit byte (c mod 8)
          | None => false
          end) as Heq.
  { unfold hasNeededChunks. destruct b as [|a b].
    - simpl. unfold js_index. destruct (c / 8 <? 0); [reflexivity|].
      now rewrite lookup_nil.
    - cbn [truthy_str negb orb length Nat.eqb].
      apply hasNeededLoop_single. apply buffer_from_hex_range. }
  rewrite Heq. split.
  - split.
    + destruct (js_index _ _) as [byte|]; [|discriminate].
      intros H. now exists byte.
    + intros (byte & -> & H). exact H.
  - intros Hlen.
    destruct (js_index _ _) as [byte|] eqn:Hidx; [|reflexivity].
    apply js_index_Some in Hidx as [Hpos Hlk].
    apply lookup_lt_Some in Hlk. lia.
Qed.

(** Chunk 11 is bit 3 of byte 1; chunk 16 lies beyond a two-byte field. *)
Lemma hasNeededChunks_single_witness :
  hasNeededChunks "0008" [11] = true /\ hasNeededChunks "0008" [16] = false.
Proof.
  split.
  - apply (proj1 (hasNeededChunks_single "0008" 11)).
    exists 8. split; reflexivity.
  - apply (proj2 (hasNeededChunks_single "0008" 16)).
    vm_compute. discriminate.
Defined.

(** ** The score and its factors *)

(** Case analysis on every test the goal branches on. *)
Ltac case_tests :=
  repeat match goal with
         | |- context [if ?b then _ else _] => destruct b
         end.

Lemma or_num_self (u : Z) : or_num (Some u) 0 = u.
Proof.
  unfold or_num. destruct (Z.eqb_spec u 0); congruence.
Qed.

Lemma mib_le (u1 u2 : Z) :
  u1 <= u2 -> (inject_Z u1 / 1024 / 1024 <= inject_Z u2 / 1024 / 1024)%Q.
Proof.
  intros H. unfold Qle, Qdiv, Qmult, Qinv, inject_Z; simpl. lia.
Qed.

Lemma capacityScore_bounds (peer : PeerData) :
  0 <= upCap peer -> (0 <= capacityScore peer <= 20)%Q.
Proof.
  intros H. unfold capacityScore. rewrite or_num_self. split.
  - apply Q.min_glb; [|discriminate].
    apply Qle_trans with (inject_Z 0 / 1024 / 1024)%Q; [discriminate|].
    now apply mib_le.
  - apply Q.le_min_r.
Qed.

Lemma capacityScore_mono (peer : PeerData) (u1 u2 : Z) :
  u1 <= u2 ->
  (capacityScore (setUpCap peer u1) <= capacityScore (setUpCap peer u2))%Q.
Proof.
  intros H. unfold capacityScore; cbn [setUpCap upCap]. rewrite !or_num_self.
  apply Q.min_le_compat_r. now apply mib_le.
Qed.

Lemma calculateLatencyScore_bounds (rtt : Z) :
  (5 <= calculateLatencyScore rtt <= 30)%Q.
Proof.
  unfold calculateLatencyScore. case_tests; split; discriminate.
Qed.

Lemma calculateLatencyScore_antitone (r1 r2 : Z) :
  r1 <= r2 -> (calculateLatencyScore r2 <= calculateLatencyScore r1)%Q.
Proof.
  intros H. unfold calculateLatencyScore.
  repeat match goal with
         | |- context [?a <? ?b] => destruct (Z.ltb_spec a b)
         end; try discriminate; lia.
Qed.

Lemma regionScore_bounds (peer : PeerData) (requesterRegion : option string) :
  (0 <= regionScore peer requesterRegion <= 30)%Q.
Proof.
  unfold regionScore. case_tests; split; discriminate.
Qed.

Lemma scorePeer_score (peer : PeerData) (neededChunks : list Z)
    (requesterRegion : option string) :
  ps_score (scorePeer peer neededChunks requesterRegion) =
  (0 + (if hasNeededChunks (chunkBitfield peer) neededChunks then 100 else 0)
   + regionScore peer requesterRegion
   + calculateLatencyScore (or_num (rttHint peer) 999)
   + capacityScore peer
   + (if isComplete peer then 20 else 0))%Q.
Proof. reflexivity. Qed.

(** The score is the sum of the five values of the factor breakdown, and it
    is at most 200, for every peer record, every needed-chunk list and every
    optional requester region. *)
Lemma scorePeer_sum_and_upper (peer : PeerData) (neededChunks : list Z)
    (requesterRegion : option string) :
  let s := scorePeer peer neededChunks requesterRegion in
  (ps_score s <= 200)%Q
  /\ (ps_score s == sumFactors (ps_factors s))%Q
  /\ length (ps_factors s) = 5%nat.
Proof.
  intros s. subst s. rewrite scorePeer_score.
  assert (capacityScore peer <= 20)%Q as Hc by apply Q.le_min_r.
  pose proof (calculateLatencyScore_bounds (or_num (rttHint peer) 999)) as Hl.
  pose proof (regionScore_bounds peer requesterRegion) as Hr.
  unfold scorePeer, sumFactors; cbn [ps_factors foldr snd length].
  set (c := capacityScore peer) in *.
  set (l := calculateLatencyScore _) in *.
  set (r := regionScore _ _) in *.
  destruct (hasNeededChunks _ _), (isComplete peer);
    repeat split; try lra.
Qed.

(** Where the [upCap] of the record is non-negative, the total score of
    [scorePeer] lies between 5 and 200 inclusive and equals the sum of the
    five values of its factor breakdown, for every needed-chunk list and
    every optional requester region. *)
Lemma scorePeer_bounds_and_sum (peer : PeerData) (neededChunks : list Z)
    (requesterRegion : option string) :
  0 <= upCap peer ->
  let s := scorePeer peer neededChunks requesterRegion in
  (5 <= ps_score s <= 200)%Q
  /\ (ps_score s == sumFactors (ps_factors s))%Q
  /\ length (ps_factors s) = 5%nat.
Proof.
  intros Hcap s. subst s. rewrite scorePeer_score.
  pose proof (capacityScore_bounds peer Hcap) as Hc.
  pose proof (calculateLatencyScore_bounds (or_num (rttHint peer) 999)) as Hl.
  pose proof (regionScore_bounds peer requesterRegion) as Hr.
  unfold scorePeer, sumFactors; cbn [ps_factors foldr snd length].
  set (c := capacityScore peer) in *.
  set (l := calculateLatencyScore _) in *.
  set (r := regionScore _ _) in *.
  destruct (hasNeededChunks _ _), (isComplete peer);
    repeat split; try lra.
Qed.

(** A seeder close by. *)
Lemma scorePeer_bounds_and_sum_witness :
  let best := mkPeerData "p" "m" "ff" 41943040 (Some "eu") (Some 10) None 0 true in
  let s := scorePeer best [0] (Some "eu") in
  (5 <= ps_score s <= 200)%Q
  /\ (ps_score s == sumFactors (ps_factors s))%Q
  /\ length (ps_factors s) = 5%nat.
Proof.
  intros best.
  apply (scorePeer_bounds_and_sum best [0] (Some "eu")).
  simpl. lia.
Defined.

(** C10. The capacity factor, which the source announces as "0-20 points",
    is bounded from above only, and POST /announce stores the [upCap] of the
    request unchecked.  An announce with [upCap = -1048576] is accepted and
    stores a record with that [upCap]; for this record the capacity factor
    is -1 and the total score of [scorePeer] is 4, which is below 5, while
    still the sum of the five factor values; POST /peers returns the peer
    with that score. *)
Theorem scorePeer_negative_upCap :
  let req := mkAnnounceRequest (Some "p") (Some "m") (Some "00")
               (Some (-1048576)) None None None in
  let peer := announcedPeer 1000 req in
  let st := (announce 300 1000 req emptyStore).2 in
  let s := scorePeer peer [0] None in
  peerKeys st !! PEER_KEY "m" "p" = Some (peer, 300)
  /\ upCap peer = -1048576
  /\ (capacityScore peer == -1)%Q
  /\ (ps_score s == 4)%Q
  /\ ~ (5 <= ps_score s)%Q
  /\ (ps_score s == sumFactors (ps_factors s))%Q
  /\ match (getPeers 6 (mkGetPeersRequest (Some "m") (Some [0]) None None) st).1 with
     | inr resp =>
         match peers resp with
         | [info] => pi_peerId info = "p" /\ (pi_score info == 4)%Q
         | _ => False
         end
     | inl _ => False
     end.
Proof.
  intros req peer st s.
  split; [reflexivity|]. split; [reflexivity|]. split; [reflexivity|].
  split; [reflexivity|]. split; [intros H; vm_compute in H; now apply H|].
  split; [reflexivity|].
  vm_compute. split; reflexivity.
Qed.

(** ** Monotonicity of the score *)

Lemma scorePeer_upCap_mono (peer : PeerData) (neededChunks : list Z)
    (requesterRegion : option string) (u1 u2 : Z) :
  u1 <= u2 ->
  (ps_score (scorePeer (setUpCap peer u1) neededChunks requesterRegion)
   <= ps_score (scorePeer (setUpCap peer u2) neededChunks requesterRegion))%Q.
Proof.
  intros H. rewrite !scorePeer_score.
  pose proof (capacityScore_mono peer u1 u2 H) as Hc.
  change (regionScore (setUpCap peer u1) requesterRegion)
    with (regionScore peer requesterRegion).
  change (regionScore (setUpCap peer u2) requesterRegion)
    with (regionScore peer requesterRegion).
  cbn [setUpCap chunkBitfield rttHint isComplete].
  set (c1 := capacityScore _) in *. set (c2 := capacityScore _) in *.
  set (l := calculateLatencyScore _). set (r := regionScore _ _).
  destruct (hasNeededChunks _ _), (isComplete peer); lra.
Qed.

Lemma scorePeer_rttHint_antitone (peer : PeerData) (neededChunks : list Z)
    (requesterRegion : option string) (r1 r2 : Z) :
  0 < r1 <= r2 ->
  (ps_score (scorePeer (setRttHint peer (Some r2)) neededChunks requesterRegion)
   <= ps_score (scorePeer (setRttHint peer (Some r1)) neededChunks requesterRegion))%Q.
Proof.
  intros H. rewrite !scorePeer_score.
  change (regionScore (setRttHint peer (Some r1)) requesterRegion)
    with (regionScore peer requesterRegion).
  change (regionScore (setRttHint peer (Some r2)) requesterRegion)
    with (regionScore peer requesterRegion).
  change (capacityScore (setRttHint peer (Some r1))) with (capacityScore peer).
  change (capacityScore (setRttHint peer (Some r2))) with (capacityScore peer).
  cbn [setRttHint chunkBitfield rttHint isComplete or_num].
  destruct (Z.eqb_spec r1 0); [lia|]. destruct (Z.eqb_spec r2 0); [lia|].
  pose proof (calculateLatencyScore_antitone r1 r2 (proj2 H)) as Hl.
  set (l1 := calculateLatencyScore r1) in *.
  set (l2 := calculateLatencyScore r2) in *.
  set (c := capacityScore _). set (r := regionScore _ _).
  destruct (hasNeededChunks _ _), (isComplete peer); lra.
Qed.

Lemma scorePeer_rttHint_missing (peer : PeerData) (neededChunks : list Z)
    (requesterRegion : option string) :
  ps_score (scorePeer (setRttHint peer None) neededChunks requesterRegion)
  = ps_score (scorePeer (setRttHint peer (Some 999)) neededChunks requesterRegion).
Proof. reflexivity. Qed.

(** C2. An [rttHint] of 0 is scored as a missing one: for every peer the
    score with [rttHint = 0] is the score without [rttHint], and it is
    strictly below the score with [rttHint = 1], although 0 <= 1. *)
Theorem scorePeer_rttHint_zero (peer : PeerData) (neededChunks : list Z)
    (requesterRegion : option string) :
  ps_score (scorePeer (setRttHint peer (Some 0)) neededChunks requesterRegion)
  = ps_score (scorePeer (setRttHint peer None) neededChunks requesterRegion)
  /\ (ps_score (scorePeer (setRttHint peer (Some 0%Z)) neededChunks requesterRegion)
      < ps_score (scorePeer (setRttHint peer (Some 1%Z)) neededChunks requesterRegion))%Q.
Proof.
  split; [reflexivity|].
  rewrite !scorePeer_score.
  change (regionScore (setRttHint peer (Some 0)) requesterRegion)
    with (regionScore peer requesterRegion).
  change (regionScore (setRttHint peer (Some 1)) requesterRegion)
    with (regionScore peer requesterRegion).
  change (capacityScore (setRttHint peer (Some 0))) with (capacityScore peer).
  change (capacityScore (setRttHint peer (Some 1))) with (capacityScore peer).
  cbn [setRttHint chunkBitfield rttHint isComplete or_num Z.eqb].
  change (calculateLatencyScore 999) with 5%Q.
  change (calculateLatencyScore 1) with 30%Q.
  set (c := capacityScore _). set (r := regionScore _ _).
  destruct (hasNeededChunks _ _), (isComplete peer); lra.
Qed.

(** ** Peer selection *)

#[local] Instance scoreGe_trans : Transitive scoreGe.
Proof. intros a b c Hab Hbc. unfold scoreGe in *. eapply Qle_trans; eauto. Qed.

Lemma insertByScore_HdRel (a x : PeerScore) (l : list PeerScore) :
  scoreGe (ps_score a) (ps_score x) ->
  HdRel (fun u v => scoreGe (ps_score u) (ps_score v)) a l ->
  HdRel (fun u v => scoreGe (ps_score u) (ps_score v)) a (insertByScore x l).
Proof.
  intros Hax Hal. destruct l as [|y l]; simpl.
  - now constructor.
  - destruct (Qle_bool (ps_score y) (ps_score x)); constructor;
      [assumption | now inversion Hal].
Qed.

Lemma insertByScore_Sorted (x : PeerScore) (l : list PeerScore) :
  Sorted (fun u v => scoreGe (ps_score u) (ps_score v)) l ->
  Sorted (fun u v => scoreGe (ps_score u) (ps_score v)) (insertByScore x l).
Proof.
  induction l as [|y l IH]; intros Hs; simpl.
  - repeat constructor.
  - destruct (Qle_bool (ps_score y) (ps_score x)) eqn:Hle.
    + constructor; [assumption|]. constructor.
      now apply Qle_bool_iff in Hle.
    + inversion Hs as [|? ? Hs' Hhd]; subst.
      constructor; [now apply IH|].
      apply insertByScore_HdRel; [|assumption].
      unfold scoreGe. apply Qlt_le_weak, Qnot_le_lt.
      intros Hc. apply Qle_bool_iff in Hc. congruence.
Qed.

Lemma sortPeersByScore_Sorted (scores : list PeerScore) :
  Sorted (fun u v => scoreGe (ps_score u) (ps_score v)) (sortPeersByScore scores).
Proof.
  induction scores as [|x l IH]; simpl; [constructor|].
  now apply insertByScore_Sorted.
Qed.

Lemma insertByScore_Permutation (x : PeerScore) (l : list PeerScore) :
  insertByScore x l ≡ₚ x :: l.
Proof.
  induction l as [|y l IH]; simpl; [reflexivity|].
  destruct (Qle_bool (ps_score y) (ps_score x)); [reflexivity|].
  rewrite IH. apply perm_swap.
Qed.

Lemma sortPeersByScore_Permutation (scores : list PeerScore) :
  sortPeersByScore scores ≡ₚ scores.
Proof.
  induction scores as [|x l IH]; simpl; [reflexivity|].
  rewrite insertByScore_Permutation. now rewrite IH.
Qed.

Lemma js_slice0_take {A} (arr : list A) (n : Z) :
  exists k, js_slice0 arr n = take k arr /\ (0 <= n -> k = Z.to_nat n).
Proof.
  unfold js_slice0. destruct (Z.ltb_spec n 0).
  - eexists; split; [reflexivity | lia].
  - eexists; split; [reflexivity | reflexivity].
Qed.

Lemma peerInfo_Some (peersData : list PeerData) (scored : PeerScore) (info : PeerInfo) :
  peerInfo peersData scored = Some info ->
  pi_score info = ps_score scored
  /\ exists peer, peer ∈ peersData /\ peerId peer = pi_peerId info.
Proof.
  unfold peerInfo.
  destruct (List.find _ peersData) as [peer|] eqn:Hfind; [|discriminate].
  intros [= <-]; simpl. split; [reflexivity|].
  apply List.find_some in Hfind as [Hin _].
  exists peer. split; [now apply list_elem_of_In | reflexivity].
Qed.

Lemma fetchPeers_acc (st : Store) (mid : string) (peerIds : list string)
    (acc : list PeerData * gmap string (list string * option Z)) (data : PeerData) :
  data ∈ (foldl (fetchPeer st mid) acc peerIds).1 ->
  data ∈ acc.1
  \/ exists pid, pid ∈ peerIds
       /\ redis_get (peerKeys st) (PEER_KEY mid pid) = Some data.
Proof.
  revert acc. induction peerIds as [|pid ids IH]; intros acc H; simpl in H.
  - now left.
  - apply IH in H as [H|(pid' & Hin & Hget)].
    + unfold fetchPeer in H.
      destruct (redis_get (peerKeys st) (PEER_KEY mid pid)) as [d|] eqn:Hget;
        simpl in H.
      * apply elem_of_app in H as [H|H]; [now left|].
        apply list_elem_of_singleton in H as ->.
        right. exists pid. split; [left | assumption].
      * now left.
    + right. exists pid'. split; [now right | assumption].
Qed.

Lemma fetchPeers_from (st : Store) (mid : string) (peerIds : list string)
    (data : PeerData) :
  data ∈ (fetchPeers st mid peerIds).1 ->
  exists pid, pid ∈ peerIds
    /\ redis_get (peerKeys st) (PEER_KEY mid pid) = Some data.
Proof.
  unfold fetchPeers. intros H.
  apply fetchPeers_acc in H as [H|H]; [|assumption].
  cbn [fst] in H. apply elem_of_nil in H. destruct H.
Qed.

(** What the selection guarantees on every store, and what it guarantees
    when the records under the manifest's keys carry the peerId of their
    key: at most [MAX_PEERS_RESPONSE] peers, no later peer with a higher
    score, and no peer of the exclusion list. *)
Lemma getPeers_selection (MAX_PEERS_RESPONSE : Z) (req : GetPeersRequest)
    (st st' : Store) (resp : GetPeersResponse) :
  getPeers MAX_PEERS_RESPONSE req st = (inr resp, st') ->
  (0 <= MAX_PEERS_RESPONSE ->
   Z.of_nat (length (peers resp)) <= MAX_PEERS_RESPONSE)
  /\ StronglySorted scoreGe (map pi_score (peers resp))
  /\ count resp = length (peers resp)
  /\ (recordsConsistent st (default "" (gp_manifestId req)) ->
      forall info, info ∈ peers resp ->
        pi_peerId info ∉ default [] (gp_excludePeers req)).
Proof.
  unfold getPeers.
  destruct (gp_neededChunks req) as [neededChunks|]; [|discriminate].
  destruct (negb (truthy_str (gp_manifestId req))); [discriminate|].
  set (mid := default "" (gp_manifestId req)).
  set (excl := default [] (gp_excludePeers req)).
  destruct (length _ =? 0)%nat.
  { intros [= <- <-]; simpl. repeat split; try lia; try constructor.
    intros _ info Hin. now apply elem_of_nil in Hin. }
  set (cands := filter _ _).
  set (peersData := (fetchPeers st mid cands).1).
  set (sorted := sortPeersByScore _).
  destruct (mapM _ _) as [infos|] eqn:HmapM; [|discriminate].
  intros [= <- <-]; cbn [peers count].
  apply mapM_Some_1 in HmapM.
  destruct (js_slice0_take sorted MAX_PEERS_RESPONSE) as (k & Hk & Hkn).
  rewrite Hk in HmapM.
  repeat split.
  - intros Hmax. apply Forall2_length in HmapM. rewrite <- HmapM.
    rewrite length_take, (Hkn Hmax). lia.
  - assert (map pi_score infos = map ps_score (take k sorted)) as ->.
    { clear -HmapM. induction HmapM as [|x y l l' Hxy _ IH]; [reflexivity|].
      simpl. apply peerInfo_Some in Hxy as [-> _]. now rewrite IH. }
    apply (StronglySorted_fmap ps_score
             (fun u v => scoreGe (ps_score u) (ps_score v)) scoreGe).
    { intros u v Huv. exact Huv. }
    pose proof (sortPeersByScore_Sorted
      (map (fun peer => scorePeer peer neededChunks (gp_region req)) peersData)) as Hs.
    apply Sorted_StronglySorted in Hs.
    2:{ intros a b c Hab Hbc. eapply scoreGe_trans; eauto. }
    fold sorted in Hs. rewrite <- (take_drop k sorted) in Hs.
    now apply StronglySorted_app_1_l in Hs.
  - intros Hcons info Hin Hexcl.
    assert (exists scored, peerInfo peersData scored = Some info)
      as [scored Hinfo].
    { clear -HmapM Hin. induction HmapM as [|x y l l' Hxy _ IH].
      - now apply elem_of_nil in Hin.
      - apply elem_of_cons in Hin as [->|Hin]; [now exists x | now apply IH]. }
    apply peerInfo_Some in Hinfo as [_ (peer & Hpeer & Hid)].
    apply fetchPeers_from in Hpeer as (pid & Hpid & Hget).
    apply Hcons in Hget.
    apply list_elem_of_filter in Hpid as [Hnot _].
    apply Hnot. fold excl. congruence.
Qed.

(** C3. With the default limit of 6: after clientId [c] announces for
    manifest [a:b] and clientId [b:c] announces for manifest [a], both
    records live under the key [peer:a:b:c]; a selection for manifest [a:b]
    that excludes [b:c] keeps the member [c], reads the record of [b:c]
    under its key and returns the peerId [b:c]. *)
Theorem getPeers_returns_excluded_peer :
  let first := mkAnnounceRequest (Some "c") (Some "a:b") (Some "ff") None None None None in
  let second := mkAnnounceRequest (Some "b:c") (Some "a") (Some "ff") None None None None in
  let st := (announce 300 2000 second (announce 300 1000 first emptyStore).2).2 in
  let query := mkGetPeersRequest (Some "a:b") (Some [0]) None (Some ["b:c"]) in
  PEER_KEY "a:b" "c" = PEER_KEY "a" "b:c"
  /\ redis_smembers (setKeys st) (PEERS_SET_KEY "a:b") = ["c"]
  /\ match (getPeers 6 query st).1 with
     | inr resp => map pi_peerId (peers resp)
     | inl _ => []
     end = ["b:c"].
Proof. vm_compute. repeat split. Qed.

(** ** The registry: announce and complete *)

Lemma redis_setex_pos {V} (m : gmap string (V * Z)) (key : string) (ttl : Z) (v : V) :
  0 < ttl -> redis_setex m key ttl v = Some (<[key := (v, ttl)]> m).
Proof.
  intros H. unfold redis_setex. now destruct (Z.ltb_spec 0 ttl); [|lia].
Qed.

(** The set of the manifest after SADD and the conditional EXPIRE. *)
Lemma announce_set (m : gmap string (list string * option Z))
    (key pid : string) (ttl : Z) :
  0 < ttl ->
  let sets := redis_sadd m key pid in
  let currentTTL := redis_ttl sets key in
  (if (currentTTL =? -1) || (currentTTL <? ttl)
   then redis_expire sets key ttl else sets)
  = <[key := (membersAfter (m !! key) pid, Some (expiryAfter (m !! key) ttl))]> m.
Proof.
  intros Hpos. cbv zeta. unfold redis_sadd, membersAfter, expiryAfter.
  destruct (m !! key) as [[members e]|] eqn:Hm.
  - destruct (decide (pid ∈ members)) as [Hin|Hnin].
    + unfold redis_ttl, redis_expire. rewrite Hm.
      destruct e as [r|]; simpl.
      * destruct (Z.eqb_spec r (-1)); simpl.
        { subst r. destruct (Z.ltb_spec 0 ttl); [|lia].
          now rewrite Z.max_r by lia. }
        destruct (Z.ltb_spec r ttl).
        { destruct (Z.ltb_spec 0 ttl); [|lia]. now rewrite Z.max_r by lia. }
        rewrite Z.max_l by lia. symmetry. now apply insert_id.
      * now destruct (Z.ltb_spec 0 ttl); [|lia].
    + unfold redis_ttl, redis_expire. rewrite !lookup_insert_eq.
      destruct e as [r|]; simpl.
      * destruct (Z.eqb_spec r (-1)); simpl.
        { subst r. destruct (Z.ltb_spec 0 ttl); [|lia].
          rewrite insert_insert_eq. now rewrite Z.max_r by lia. }
        destruct (Z.ltb_spec r ttl).
        { destruct (Z.ltb_spec 0 ttl); [|lia].
          rewrite insert_insert_eq. now rewrite Z.max_r by lia. }
        now rewrite Z.max_l by lia.
      * destruct (Z.ltb_spec 0 ttl); [|lia]. now rewrite insert_insert_eq.
  - unfold redis_ttl, redis_expire. rewrite !lookup_insert_eq. simpl.
    destruct (Z.ltb_spec 0 ttl); [|lia]. now rewrite insert_insert_eq.
Qed.

(** The whole effect of an accepted POST /announce. *)
Lemma announce_store (PEER_TTL now : Z) (req : AnnounceRequest) (st : Store) :
  0 < PEER_TTL -> announceValid req = true ->
  let peerData := announcedPeer now req in
  let key := PEER_KEY (manifestId peerData) (peerId peerData) in
  let setKey := PEERS_SET_KEY (manifestId peerData) in
  let old := setKeys st !! setKey in
  announce PEER_TTL now req st =
    (inr {| an_success := true; an_peerId := peerId peerData; an_ttl := PEER_TTL |},
     {| peerKeys := <[key := (peerData, PEER_TTL)]> (peerKeys st);
        signalKeys := signalKeys st;
        setKeys := <[setKey := (membersAfter old (peerId peerData),
                                Some (expiryAfter old PEER_TTL))]> (setKeys st) |}).
Proof.
  intros Hpos Hvalid. cbv zeta. unfold announce.
  rewrite Hvalid; simpl negb; cbv iota.
  rewrite redis_setex_pos by assumption.
  now rewrite announce_set by assumption.
Qed.





(** POST /complete is [markComplete] on the ids of a body that passes the
    validation, and InvalidRequest, with the store as it was, otherwise. *)
Lemma complete_markComplete (PEER_TTL now : Z) (req : CompleteRequest) (st : Store) :
  complete PEER_TTL now req st =
    if truthy_str (cr_clientId req) && truthy_str (cr_manifestId req)
    then markComplete PEER_TTL now (default "" (cr_manifestId req))
           (default "" (cr_clientId req)) st
    else (inl InvalidRequest, st).
Proof.
  unfold complete.
  now destruct (truthy_str (cr_clientId req)), (truthy_str (cr_manifestId req)).
Qed.


(** C6. Every accepted announce leaves the membership set of the manifest
    with the expiry max(current expiry, PEER_TTL): its TTL afterwards is the
    larger of the two when the set had an expiry and PEER_TTL when the set
    is new (the TTL command answers -2 without the key and -1 without an
    expiry); it is at least the TTL written with the peer record and at
    least the remaining TTL the set had before. *)
Theorem announce_extends_set_expiry (PEER_TTL now : Z) (req : AnnounceRequest)
    (st : Store) :
  0 < PEER_TTL -> announceValid req = true ->
  let setKey := PEERS_SET_KEY (default "" (ar_manifestId req)) in
  let key := PEER_KEY (default "" (ar_manifestId req)) (default "" (ar_clientId req)) in
  let st' := (announce PEER_TTL now req st).2 in
  redis_ttl (setKeys st') setKey = Z.max (redis_ttl (setKeys st) setKey) PEER_TTL
  /\ (snd <$> peerKeys st' !! key) = Some PEER_TTL
  /\ PEER_TTL <= redis_ttl (setKeys st') setKey
  /\ (forall members current,
        setKeys st !! setKey = Some (members, Some current) ->
        current <= redis_ttl (setKeys st') setKey
        /\ redis_ttl (setKeys st') setKey = Z.max current PEER_TTL).
Proof.
  intros Hpos Hvalid setKey key st'. subst st'.
  rewrite (announce_store PEER_TTL now req st Hpos Hvalid).
  cbn [snd announcedPeer peerId manifestId peerKeys setKeys].
  fold setKey key.
  unfold redis_ttl at 1 3 4 5. rewrite !lookup_insert_eq.
  unfold redis_ttl, expiryAfter.
  destruct (setKeys st !! setKey) as [[members [current|]]|]; cbn [fmap option_fmap option_map snd].
  - split; [lia|]. split; [reflexivity|]. split; [lia|].
    intros ? ? [= _ <-]. lia.
  - split; [lia|]. split; [reflexivity|]. split; [lia|].
    intros ? ? [=].
  - split; [lia|]. split; [reflexivity|]. split; [lia|].
    intros ? ? [=].
Qed.

(** A set announced 100 seconds ago has 200 seconds left and is extended to
    300; a set with 500 seconds left keeps them. *)
Lemma announce_extends_set_expiry_witness :
  let other := mkAnnounceRequest (Some "B") (Some "M") (Some "0f") None None None None in
  let req := mkAnnounceRequest (Some "A") (Some "M") (Some "ff") None None None None in
  let short := elapse 100 (announce 300 1000 other emptyStore).2 in
  let long := mkStore ∅ ∅ {[ "peers:M"%string := (["B"%string], Some 500) ]} in
  redis_ttl (setKeys short) "peers:M" = 200
  /\ redis_ttl (setKeys (announce 300 101000 req short).2) "peers:M" = 300
  /\ redis_ttl (setKeys (announce 300 101000 req long).2) "peers:M" = 500.
Proof.
  intros other req short long.
  destruct (announce_extends_set_expiry 300 101000 req short ltac:(lia) eq_refl)
    as (Hs & _).
  destruct (announce_extends_set_expiry 300 101000 req long ltac:(lia) eq_refl)
    as (Hl & _).
  split; [vm_compute; reflexivity|]. split.
  - etransitivity; [exact Hs|]. vm_compute. reflexivity.
  - etransitivity; [exact Hl|]. vm_compute. reflexivity.
Defined.

(** ** The relay: signal and poll *)

Lemma signal_cases (user : option User) (tKey tMsg : Z) (req : SignalRequest)
    (st : Store) :
  (signalInvalid req /\ signal user tKey tMsg req st = (inl InvalidRequest, st))
  \/ (~ signalInvalid req
      /\ signal user tKey tMsg req st =
           (inr true,
            withSignalKeys st
              (<[signalKey (default "" (sg_to req)) (senderOf user) tKey :=
                   (signalMessage user tMsg req, 30)]> (signalKeys st)))).
Proof.
  unfold signal, signalInvalid.
  destruct (truthy_str (sg_type req)) eqn:Htype; [|left; auto].
  destruct (truthy_str (sg_to req)) eqn:Hto; [|left; auto].
  cbn [negb orb].
  destruct (bool_decide _) eqn:Hin; cbn [negb].
  - right. apply bool_decide_eq_true in Hin. split.
    + intros [?|[?|?]]; [discriminate | discriminate | contradiction].
    + reflexivity.
  - left. apply bool_decide_eq_false in Hin. auto.
Qed.

(** C8 as stated fails: a signal without payload is accepted and stored. *)
Lemma signal_without_payload_accepted :
  let req := mkSignalRequest (Some "offer") (Some "B") None in
  let run := signal (Some (mkUser 7 "alice")) 5 5 req emptyStore in
  run.1 = inr true
  /\ redis_get (signalKeys run.2) "signal:B:7:5"
     = Some (mkSignalMessage "offer" (FromId 7) "B" None 5).
Proof. vm_compute. split; reflexivity. Qed.

(** C8, amended. POST /signal answers InvalidRequest, with the store as it
    was, whenever [type] or [to] is missing or empty or [type] is not one of
    offer, answer, ice-candidate; every other request, with or without a
    payload, is accepted and its message stored for 30 seconds; a request
    that is not accepted never changes the store. *)
Theorem signal_validation (user : option User) (tKey tMsg : Z)
    (req : SignalRequest) (st : Store) :
  (signalInvalid req <-> signal user tKey tMsg req st = (inl InvalidRequest, st))
  /\ (~ signalInvalid req <->
      exists st', signal user tKey tMsg req st = (inr true, st')
        /\ signalKeys st' !! signalKey (default "" (sg_to req)) (senderOf user) tKey
           = Some (signalMessage user tMsg req, 30))
  /\ (forall e st', signal user tKey tMsg req st = (inl e, st') -> st' = st).
Proof.
  destruct (signal_cases user tKey tMsg req st) as [[Hinv Hrun]|[Hok Hrun]];
    rewrite Hrun.
  - split; [tauto|]. split.
    + split; [contradiction|]. intros (st' & [=] & _).
    + now intros e st' [= _ <-].
  - split; [|split].
    + split; [contradiction | discriminate].
    + split; [|tauto]. intros _. eexists. split; [reflexivity|].
      apply lookup_insert_eq.
    + discriminate.
Qed.

(** A signal of an unknown type, one without recipient, and an answer. *)
Lemma signal_validation_witness :
  let user := Some (mkUser 7 "alice") in
  signal user 5 5 (mkSignalRequest (Some "bye") (Some "B") (Some "x")) emptyStore
    = (inl InvalidRequest, emptyStore)
  /\ signal user 5 5 (mkSignalRequest (Some "offer") None (Some "x")) emptyStore
    = (inl InvalidRequest, emptyStore)
  /\ exists st', signal user 5 5 (mkSignalRequest (Some "answer") (Some "B") None)
                   emptyStore = (inr true, st').
Proof.
  intros user. split; [|split].
  - apply (signal_validation user 5 5
             (mkSignalRequest (Some "bye") (Some "B") (Some "x")) emptyStore).
    right; right. vm_compute. intros H.
    repeat (apply elem_of_cons in H as [H|H]; [discriminate|]).
    now apply elem_of_nil in H.
  - apply (signal_validation user 5 5
             (mkSignalRequest (Some "offer") None (Some "x")) emptyStore).
    right; left. reflexivity.
  - destruct (proj1 (proj1 (proj2 (signal_validation user 5 5
             (mkSignalRequest (Some "answer") (Some "B") None) emptyStore))))
      as (st' & Hrun & _).
    + intros [H|[H|H]]; [discriminate | discriminate |].
      apply H. vm_compute. right; left.
    + now exists st'.
Defined.

(** *** Keys of the relay *)

Lemma pretty_N_go_colon (x : N) (s : string) :
  hasChar ":" (pretty_N_go x s) = hasChar ":" s.
Proof.
  revert s. induction (N.lt_wf_0 x) as [x _ IH]; intros s.
  destruct (N.eq_dec x 0%N) as [->|Hx].
  - now rewrite pretty_N_go_0.
  - rewrite pretty_N_go_step by lia.
    rewrite IH by (apply N.div_lt; lia).
    cbn [hasChar]. unfold pretty_N_char.
    repeat case_match; reflexivity.
Qed.

Lemma pretty_Z_colon (z : Z) : hasChar ":" (pretty z) = false.
Proof.
  destruct z as [|p|p]; [reflexivity| |].
  - unfold pretty, pretty_Z, pretty, pretty_positive, pretty, pretty_N.
    case_decide; [reflexivity|]. now rewrite pretty_N_go_colon.
  - unfold pretty, pretty_Z, pretty, pretty_positive, pretty, pretty_N.
    case_decide; [reflexivity|].
    change (hasChar ":" (String "-" (pretty_N_go (N.pos p) "")) = false).
    cbn [hasChar]. now rewrite pretty_N_go_colon.
Qed.

Lemma append_cons (c : ascii) (s1 s2 : string) :
  String c s1 +:+ s2 = String c (s1 +:+ s2).
Proof. reflexivity. Qed.

Lemma hasChar_append (c : ascii) (s1 s2 : string) :
  hasChar c (s1 +:+ s2) = hasChar c s1 || hasChar c s2.
Proof.
  induction s1 as [|a s1 IH]; [reflexivity|].
  rewrite append_cons. cbn [hasChar]. rewrite IH. now rewrite orb_assoc.
Qed.

Lemma hasChar_colon_mid (b d : string) : hasChar ":" (b +:+ ":" +:+ d) = true.
Proof.
  rewrite hasChar_append. change (":" +:+ d) with (String ":" d).
  cbn [hasChar]. now rewrite orb_true_r.
Qed.

(** A string is cut in one way at its last colon. *)
Lemma last_colon_split (a b c d : string) :
  hasChar ":" c = false -> hasChar ":" d = false ->
  a +:+ ":" +:+ c = b +:+ ":" +:+ d -> a = b /\ c = d.
Proof.
  intros Hc Hd. revert b.
  induction a as [|x a IH]; intros [|y b] H.
  - change (String ":" c = String ":" d) in H. injection H as H. now split.
  - change (String ":" c = String y (b +:+ ":" +:+ d)) in H.
    injection H as _ H. subst c. now rewrite hasChar_colon_mid in Hc.
  - change (String x (a +:+ ":" +:+ c) = String ":" d) in H.
    injection H as _ H. subst d. now rewrite hasChar_colon_mid in Hd.
  - change (String x (a +:+ ":" +:+ c) = String y (b +:+ ":" +:+ d)) in H.
    injection H as -> H. apply IH in H as [-> ->]. now split.
Qed.

(** For one recipient, the key determines the rendered sender and the
    timestamp. *)
Lemma signalKey_inj (to : string) (from1 from2 : Sender) (t1 t2 : Z) :
  signalKey to from1 t1 = signalKey to from2 t2 ->
  renderSender from1 = renderSender from2 /\ t1 = t2.
Proof.
  unfold signalKey. intros H.
  apply (inj (String.append "signal:")) in H.
  apply (inj (String.append to)) in H.
  apply (inj (String.append ":")) in H.
  apply last_colon_split in H as [Hr Ht]; try apply pretty_Z_colon.
  split; [assumption|]. now apply (inj pretty) in Ht.
Qed.

(** C7 as stated fails: two successive messages of one sender to one
    recipient in the same millisecond share their key; the second replaces
    the first, and the recipient polls one message. *)
Lemma signal_same_millisecond_overwrites :
  let alice := Some (mkUser 7 "alice") in
  let st1 := (signal alice 5 5 (mkSignalRequest (Some "offer") (Some "B") (Some "sdp"))
                emptyStore).2 in
  let st2 := (signal alice 5 5
                (mkSignalRequest (Some "ice-candidate") (Some "B") (Some "cand")) st1).2 in
  redis_get (signalKeys st1) "signal:B:7:5"
    = Some (mkSignalMessage "offer" (FromId 7) "B" (Some "sdp") 5)
  /\ redis_get (signalKeys st2) "signal:B:7:5"
    = Some (mkSignalMessage "ice-candidate" (FromId 7) "B" (Some "cand") 5)
  /\ (getSignals "B" st2).1
    = inr [mkSignalMessage "ice-candidate" (FromId 7) "B" (Some "cand") 5].
Proof. vm_compute. repeat split. Qed.

(** C7, amended. The key of a stored signal is made of the recipient, the
    sender as rendered in the key and the millisecond timestamp; two accepted
    signals to one recipient whose rendered senders differ or whose
    timestamps differ have different keys, and after both are enqueued
    both messages are stored, each under its own key. *)
Theorem signal_no_collision (user1 user2 : option User)
    (tKey1 tMsg1 tKey2 tMsg2 : Z) (req1 req2 : SignalRequest)
    (st st1 st2 : Store) :
  sg_to req1 = sg_to req2 ->
  signal user1 tKey1 tMsg1 req1 st = (inr true, st1) ->
  signal user2 tKey2 tMsg2 req2 st1 = (inr true, st2) ->
  renderSender (senderOf user1) ≠ renderSender (senderOf user2) \/ tKey1 ≠ tKey2 ->
  let to := default "" (sg_to req1) in
  let key1 := signalKey to (senderOf user1) tKey1 in
  let key2 := signalKey to (senderOf user2) tKey2 in
  key1 ≠ key2
  /\ redis_get (signalKeys st2) key1 = Some (signalMessage user1 tMsg1 req1)
  /\ redis_get (signalKeys st2) key2 = Some (signalMessage user2 tMsg2 req2).
Proof.
  intros Hto Hrun1 Hrun2 Hdiff to key1 key2.
  assert (key1 ≠ key2) as Hne.
  { intros Heq. apply signalKey_inj in Heq as [Hr Ht]. tauto. }
  destruct (signal_cases user1 tKey1 tMsg1 req1 st) as [[_ H]|[_ H]];
    rewrite H in Hrun1; [discriminate|]. injection Hrun1 as <-. clear H.
  destruct (signal_cases user2 tKey2 tMsg2 req2
              (withSignalKeys st
                 (<[signalKey (default "" (sg_to req1)) (senderOf user1) tKey1 :=
                      (signalMessage user1 tMsg1 req1, 30)]> (signalKeys st))))
    as [[_ H]|[_ H]];
    rewrite H in Hrun2; [discriminate|]. injection Hrun2 as <-. clear H.
  rewrite <- Hto. fold to key1 key2.
  cbn [withSignalKeys signalKeys]. unfold redis_get.
  split; [assumption|]. split.
  - rewrite lookup_insert_ne by congruence. now rewrite lookup_insert_eq.
  - now rewrite lookup_insert_eq.
Qed.

(** An offer of user 7 and an offer of user 8 in the same millisecond. *)
Lemma signal_no_collision_witness :
  let req := mkSignalRequest (Some "offer") (Some "B") (Some "sdp") in
  let st1 := (signal (Some (mkUser 7 "alice")) 5 5 req emptyStore).2 in
  let st2 := (signal (Some (mkUser 8 "bob")) 5 5 req st1).2 in
  redis_get (signalKeys st2) "signal:B:7:5"
    = Some (mkSignalMessage "offer" (FromId 7) "B" (Some "sdp") 5)
  /\ redis_get (signalKeys st2) "signal:B:8:5"
    = Some (mkSignalMessage "offer" (FromId 8) "B" (Some "sdp") 5).
Proof.
  intros req st1 st2.
  destruct (signal_no_collision (Some (mkUser 7 "alice")) (Some (mkUser 8 "bob"))
              5 5 5 5 req req emptyStore st1 st2) as (_ & H1 & H2).
  - reflexivity.
  - vm_compute. reflexivity.
  - vm_compute. reflexivity.
  - left. vm_compute. discriminate.
  - split; [exact H1 | exact H2].
Defined.

(** *** Polling *)

Lemma hasChar_cons_false (c a : ascii) (s : string) :
  hasChar c (String a s) = false -> Ascii.eqb a c = false /\ hasChar c s = false.
Proof. cbn [hasChar]. now intros [? ?]%orb_false_elim. Qed.

Lemma globFree_cons (a : ascii) (s : string) :
  globFree (String a s) = true ->
  (Ascii.eqb a "*" = false /\ Ascii.eqb a "?" = false
   /\ Ascii.eqb a "[" = false /\ Ascii.eqb a "\" = false)
  /\ globFree s = true.
Proof.
  unfold globFree. intros H. apply negb_true_iff in H.
  apply orb_false_elim in H as [H H4]. apply orb_false_elim in H as [H H3].
  apply orb_false_elim in H as [H1 H2].
  apply hasChar_cons_false in H1 as [? ->], H2 as [? ->], H3 as [? ->], H4 as [? ->].
  now repeat split.
Qed.

(** A prefix without special characters matches itself, character by
    character. *)
Lemma glob_literal_prefix (pre rest s : string) :
  globFree pre = true -> glob (pre +:+ rest) (pre +:+ s) = glob rest s.
Proof.
  induction pre as [|a pre IH]; intros Hfree; [reflexivity|].
  apply globFree_cons in Hfree as [(H1 & H2 & H3 & H4) Hfree].
  rewrite !append_cons. cbn [glob]. rewrite H1, H2, H3, H4.
  rewrite Ascii.eqb_refl. now apply IH.
Qed.

Lemma signalPattern_matches (to : string) (from : Sender) (now : Z) :
  globFree to = true ->
  stringmatch (signalPattern to) (signalKey to from now) = true.
Proof.
  intros Hfree. unfold signalPattern, signalKey.
  change (glob ("signal:" +:+ to +:+ ":*")
               ("signal:" +:+ to +:+ ":" +:+ renderSender from +:+ ":" +:+ pretty now)
          = true).
  rewrite (glob_literal_prefix "signal:") by reflexivity.
  rewrite (glob_literal_prefix to) by assumption.
  change (":*" : string) with (":" +:+ "*").
  rewrite (glob_literal_prefix ":") by reflexivity.
  now destruct (renderSender from +:+ ":" +:+ pretty now).
Qed.

Lemma redis_keys_lookup {V} (m : gmap string (V * Z)) (pattern key : string) :
  key ∈ redis_keys m pattern <->
  is_Some (m !! key) /\ stringmatch pattern key = true.
Proof.
  unfold redis_keys. rewrite list_elem_of_filter, list_elem_of_fmap. split.
  - intros [Hmatch ([k v] & -> & Hin)].
    apply elem_of_map_to_list in Hin. split; [now exists v|].
    now apply Is_true_true.
  - intros [[v Hv] Hmatch]. split; [now apply Is_true_true|].
    exists (key, v). split; [reflexivity|]. now apply elem_of_map_to_list.
Qed.

Lemma redis_keys_insert_fresh {V} (m : gmap string (V * Z))
    (pattern key : string) (e : V * Z) :
  m !! key = None -> stringmatch pattern key = true ->
  redis_keys (<[key := e]> m) pattern ≡ₚ key :: redis_keys m pattern.
Proof.
  intros Hfresh Hmatch. unfold redis_keys.
  rewrite map_to_list_insert by assumption.
  rewrite fmap_cons. cbn [fst].
  rewrite filter_cons_True by now apply Is_true_true.
  reflexivity.
Qed.

Lemma withSignalKeys_restore (st : Store) (sk : gmap string (SignalMessage * Z)) :
  withSignalKeys (withSignalKeys st sk) (signalKeys st) = st.
Proof. now destruct st. Qed.

(** The relay on a recipient without special characters: with no pending
    key for [to], a signal to [to] is accepted, the next poll of [to]
    returns exactly its message and puts the store back as it was, and the
    poll after that returns nothing. *)
Lemma signal_then_poll (user : option User) (tKey tMsg : Z)
    (type to : string) (payload : option string) (st : Store) :
  type ∈ signalTypes -> to ≠ EmptyString -> globFree to = true ->
  redis_keys (signalKeys st) (signalPattern to) = [] ->
  let req := mkSignalRequest (Some type) (Some to) payload in
  exists st1,
    signal user tKey tMsg req st = (inr true, st1)
    /\ getSignals to st1 =
         (inr [mkSignalMessage type (senderOf user) to payload tMsg], st)
    /\ getSignals to st = (inr [], st).
Proof.
  intros Htype Hto Hfree Hempty req.
  assert (truthy_str (Some to) = true) as Htruthy by now destruct to.
  assert (truthy_str (Some type) = true) as Htruthy'.
  { destruct type; [|reflexivity].
    repeat (apply elem_of_cons in Htype as [Htype|Htype]; [discriminate|]).
    now apply elem_of_nil in Htype. }
  pose proof (signalPattern_matches to (senderOf user) tKey Hfree) as Hmatch.
  set (key := signalKey to (senderOf user) tKey) in *.
  assert (signalKeys st !! key = None) as Hfresh.
  { destruct (signalKeys st !! key) as [e|] eqn:He; [|reflexivity].
    assert (key ∈ redis_keys (signalKeys st) (signalPattern to)) as Hin.
    { apply redis_keys_lookup. split; [now exists e | assumption]. }
    rewrite Hempty in Hin. now apply elem_of_nil in Hin. }
  destruct (signal_cases user tKey tMsg req st) as [[Hinv _]|[_ Hrun]].
  { destruct Hinv as [H|[H|H]]; unfold req in H; cbn [sg_type sg_to default] in H;
      [congruence | congruence | contradiction]. }
  change (signalKey (default "" (sg_to req)) (senderOf user) tKey) with key in Hrun.
  eexists. split; [exact Hrun|].
  unfold getSignals. rewrite Htruthy. cbn [negb withSignalKeys signalKeys].
  split.
  - pose proof (redis_keys_insert_fresh (signalKeys st) (signalPattern to) key
                  (signalMessage user tMsg req, 30) Hfresh Hmatch) as Hkeys.
    rewrite Hempty in Hkeys. apply Permutation_singleton_r in Hkeys.
    rewrite Hkeys. cbn [foldl]. unfold drainKey, redis_get, redis_del.
    cbn [fst snd]. rewrite lookup_insert_eq. cbn [fmap option_fmap option_map fst snd].
    rewrite delete_insert_eq, delete_id by assumption.
    rewrite withSignalKeys_restore. reflexivity.
  - rewrite Hempty. cbn [foldl fst snd]. now destruct st.
Qed.

(** C9. A recipient id is copied into the pattern of KEYS as it is. For the
    recipient [[x]], starting from the empty store: the offer of sender 7 is
    accepted and stored under the key [signal:[x]:7:5]; the pattern
    [signal:[x]:*] does not match that key, so the poll of [[x]] returns
    no message and the message stays in the store. *)
Theorem getSignals_misses_bracket_recipient :
  let req := mkSignalRequest (Some "offer") (Some "[x]") (Some "P") in
  let run := signal (Some (mkUser 7 "A")) 5 5 req emptyStore in
  redis_keys (signalKeys emptyStore) (signalPattern "[x]") = []
  /\ run.1 = inr true
  /\ redis_get (signalKeys run.2) "signal:[x]:7:5"
     = Some (mkSignalMessage "offer" (FromId 7) "[x]" (Some "P") 5)
  /\ stringmatch (signalPattern "[x]") "signal:[x]:7:5" = false
  /\ getSignals "[x]" run.2 = (inr [], run.2).
Proof. vm_compute. repeat split. Qed.

(** ** Invariants of the reachable stores *)

(** A string is cut in one way at its first colon. *)
Lemma first_colon_split (a b c d : string) :
  hasChar ":" a = false -> hasChar ":" b = false ->
  a +:+ ":" +:+ c = b +:+ ":" +:+ d -> a = b /\ c = d.
Proof.
  revert b. induction a as [|x a IH]; intros [|y b] Ha Hb H.
  - change (String ":" c = String ":" d) in H. injection H as H. now split.
  - change (String ":" c = String y (b +:+ ":" +:+ d)) in H.
    injection H as <- _. discriminate Hb.
  - change (String x (a +:+ ":" +:+ c) = String ":" d) in H.
    injection H as -> _. discriminate Ha.
  - change (String x (a +:+ ":" +:+ c) = String y (b +:+ ":" +:+ d)) in H.
    injection H as -> H.
    apply hasChar_cons_false in Ha as [_ Ha], Hb as [_ Hb].
    destruct (IH b Ha Hb H) as [-> ->]. now split.
Qed.

Lemma PEER_KEY_inj (m1 m2 p1 p2 : string) :
  hasChar ":" m1 = false -> hasChar ":" m2 = false ->
  PEER_KEY m1 p1 = PEER_KEY m2 p2 -> m1 = m2 /\ p1 = p2.
Proof.
  unfold PEER_KEY. intros H1 H2 H.
  apply (inj (String.append "peer:")) in H.
  now apply first_colon_split in H.
Qed.

Lemma storeConsistent_records (st : Store) (mid : string) :
  storeConsistent st -> hasChar ":" mid = false -> recordsConsistent st mid.
Proof.
  intros Hst Hmid pid data Hget. unfold redis_get in Hget.
  destruct (peerKeys st !! PEER_KEY mid pid) as [[data' ttl]|] eqn:Hlk;
    [|discriminate].
  injection Hget as ->.
  apply Hst in Hlk as [Hkey Hcolon].
  apply PEER_KEY_inj in Hkey as [_ ->]; auto.
Qed.

Lemma announce_cases (PEER_TTL now : Z) (req : AnnounceRequest) (st : Store) :
  (announce PEER_TTL now req st).2 = st
  \/ (0 < PEER_TTL /\ announceValid req = true).
Proof.
  destruct (announceValid req) eqn:Hvalid.
  - destruct (Z.ltb_spec 0 PEER_TTL) as [Hpos|Hneg]; [now right|].
    left. unfold announce, redis_setex. rewrite Hvalid. cbn [negb].
    now destruct (Z.ltb_spec 0 PEER_TTL); [lia|].
  - left. unfold announce. now rewrite Hvalid.
Qed.

Lemma redis_srem_expire (m : gmap string (list string * option Z))
    (key member : string) :
  (forall k members e, m !! k = Some (members, e) -> is_Some e) ->
  forall k members e,
    redis_srem m key member !! k = Some (members, e) -> is_Some e.
Proof.
  intros Hm k members e. unfold redis_srem.
  destruct (m !! key) as [[ms e0]|] eqn:Hkey; [|apply Hm].
  destruct (filter _ ms) as [|x ms'].
  - intros [_ H]%lookup_delete_Some. eapply Hm, H.
  - intros [[_ [= _ <-]]|[_ H]]%lookup_insert_Some.
    + eapply Hm, Hkey.
    + eapply Hm, H.
Qed.

Lemma fetchPeers_expire (st : Store) (mid : string) (peerIds : list string)
    (acc : list PeerData * gmap string (list string * option Z)) :
  (forall k members e, acc.2 !! k = Some (members, e) -> is_Some e) ->
  forall k members e,
    (foldl (fetchPeer st mid) acc peerIds).2 !! k = Some (members, e) -> is_Some e.
Proof.
  revert acc. induction peerIds as [|pid ids IH]; intros acc Hacc; [exact Hacc|].
  cbn [foldl]. apply IH. unfold fetchPeer.
  destruct (redis_get _ _); cbn [snd]; [exact Hacc|].
  now apply redis_srem_expire.
Qed.

Lemma getPeers_store (MAX_PEERS_RESPONSE : Z) (req : GetPeersRequest) (st : Store) :
  let st' := (getPeers MAX_PEERS_RESPONSE req st).2 in
  peerKeys st' = peerKeys st /\ signalKeys st' = signalKeys st
  /\ (setsExpire st -> setsExpire st').
Proof.
  unfold getPeers.
  destruct (gp_neededChunks req); [|now repeat split].
  destruct (negb _); [now repeat split|].
  destruct (length _ =? 0)%nat; [now repeat split|].
  cbv zeta.
  match goal with
  | |- context [fetchPeers ?s ?m ?c] => set (fetched := fetchPeers s m c)
  end.
  assert (setsExpire st -> setsExpire (withSetKeys st fetched.2)) as Hsets.
  { intros Hst k members e. cbn [withSetKeys setKeys]. unfold fetched, fetchPeers.
    apply fetchPeers_expire. exact Hst. }
  destruct (mapM _ _); cbn [snd]; now repeat split.
Qed.

Lemma redis_elapse_lookup {V} (m : gmap string (V * Z)) (d : Z) (key : string)
    (v : V) (ttl : Z) :
  redis_elapse m d !! key = Some (v, ttl) ->
  m !! key = Some (v, ttl + d) /\ 0 < ttl.
Proof.
  unfold redis_elapse. rewrite lookup_omap.
  destruct (m !! key) as [[v0 t0]|]; [|discriminate]. cbn.
  destruct (Z.ltb_spec 0 (t0 - d)); [|discriminate].
  intros [= <- <-]. split; [f_equal; f_equal; lia | assumption].
Qed.

(** Reachable stores keep every record under the key of its ids and give
    every set an expiry. *)
Lemma reachable_invariants (PEER_TTL MAX_PEERS_RESPONSE : Z) (st : Store) :
  reachable PEER_TTL MAX_PEERS_RESPONSE st ->
  storeConsistent st /\ setsExpire st.
Proof.
  induction 1 as [|now req st _ [IHc IHs] Hcolon|req st _ [IHc IHs]
                  |now req st _ [IHc IHs]|user tKey tMsg req st _ [IHc IHs]
                  |clientId st _ [IHc IHs]|d st _ [IHc IHs]].
  - split; intros k ? ?; cbn; rewrite lookup_empty; discriminate.
  - destruct (announce_cases PEER_TTL now req st) as [->|[Hpos Hvalid]];
      [now split|].
    rewrite (announce_store PEER_TTL now req st Hpos Hvalid). cbn [snd]. split.
    + intros k data ttl. cbn [peerKeys].
      intros [[<- [= <- _]]|[_ H]]%lookup_insert_Some; [|exact (IHc _ _ _ H)].
      split; [reflexivity | exact Hcolon].
    + intros k members e. cbn [setKeys].
      intros [[_ [= _ <-]]|[_ H]]%lookup_insert_Some; [eauto|].
      exact (IHs _ _ _ H).
  - destruct (getPeers_store MAX_PEERS_RESPONSE req st) as (Hp & _ & Hs).
    split; [|now apply Hs].
    intros k data ttl. rewrite Hp. apply IHc.
  - unfold complete. destruct (_ || _); [now split|].
    unfold markComplete, redis_get, redis_setex.
    set (key := PEER_KEY _ _).
    destruct (peerKeys st !! key) as [[data ttl]|] eqn:Hlk; [|now split].
    cbn [fmap option_fmap option_map fst].
    destruct (0 <? PEER_TTL); [|now split].
    cbn [snd withPeerKeys]. split; [|exact IHs].
    intros k data' ttl'. cbn [peerKeys withPeerKeys].
    intros [[<- [= <- _]]|[_ H]]%lookup_insert_Some; [|exact (IHc _ _ _ H)].
    cbn [manifestId peerId]. exact (IHc _ _ _ Hlk).
  - destruct (signal_cases user tKey tMsg req st) as [[_ ->]|[_ ->]]; now split.
  - unfold getSignals. destruct (negb _); now split.
  - split.
    + intros k data ttl. cbn [elapse peerKeys].
      intros [H _]%redis_elapse_lookup. exact (IHc _ _ _ H).
    + intros k members e. cbn [elapse setKeys]. unfold redis_elapse_sets.
      rewrite lookup_omap.
      destruct (setKeys st !! k) as [[ms [r|]]|] eqn:Hlk; cbn.
      * destruct (0 <? r - d); [|discriminate]. intros [= _ <-]. eauto.
      * apply IHs in Hlk as [? [=]].
      * discriminate.
Qed.

(** On every reachable store, a selection for a manifestId without colon
    returns no peer of the exclusion list. *)
Lemma getPeers_reachable_exclusion (PEER_TTL MAX_PEERS_RESPONSE : Z)
    (req : GetPeersRequest) (st st' : Store) (resp : GetPeersResponse) :
  reachable PEER_TTL MAX_PEERS_RESPONSE st ->
  hasChar ":" (default "" (gp_manifestId req)) = false ->
  getPeers MAX_PEERS_RESPONSE req st = (inr resp, st') ->
  forall info, info ∈ peers resp ->
    pi_peerId info ∉ default [] (gp_excludePeers req).
Proof.
  intros Hreach Hcolon Hrun.
  apply reachable_invariants in Hreach as [Hc _].
  apply getPeers_selection in Hrun as (_ & _ & _ & Hexcl).
  apply Hexcl. now apply storeConsistent_records.
Qed.

(** * Further properties of the code *)

(** ** services/peer-scoring.ts *)

Lemma hasNeededLoop_any (bytes : list Z) (neededChunks : list Z) :
  hasNeededLoop bytes neededChunks = true <->
  exists c, c ∈ neededChunks /\ hasNeededLoop bytes [c] = true.
Proof.
  induction neededChunks as [|c rest IH].
  - split; [discriminate|]. intros (c & Hin & _). now apply elem_of_nil in Hin.
  - assert (hasNeededLoop bytes (c :: rest)
            = hasNeededLoop bytes [c] || hasNeededLoop bytes rest) as ->.
    { cbn [hasNeededLoop]. destruct (c / 8 <? _); [|reflexivity].
      now destruct (negb _). }
    rewrite orb_true_iff, IH. split.
    + intros [H|(c' & Hin & H)].
      * exists c. split; [left | assumption].
      * exists c'. split; [now right | assumption].
    + intros (c' & Hin & H). apply elem_of_cons in Hin as [->|Hin].
      * now left.
      * right. now exists c'.
Qed.

(** X1. A bitfield holds one of the needed chunks exactly when it holds one
    of them taken alone: [hasNeededChunks b cs] is the disjunction of
    [hasNeededChunks b [c]] over the chunks [c] of [cs] (false for the empty
    list and for the empty bitfield). *)
Theorem hasNeededChunks_any (b : string) (neededChunks : list Z) :
  hasNeededChunks b neededChunks = true <->
  exists c, c ∈ neededChunks /\ hasNeededChunks b [c] = true.
Proof.
  unfold hasNeededChunks. destruct b as [|a b].
  - cbn [truthy_str negb orb]. split; [discriminate|]. now intros (c & _ & H).
  - cbn [truthy_str negb orb length Nat.eqb].
    destruct neededChunks as [|c0 rest].
    + split; [discriminate|]. intros (c & Hin & _). now apply elem_of_nil in Hin.
    + cbn [length Nat.eqb]. apply hasNeededLoop_any.
Qed.

Lemma buffer_from_hex_length (s : string) :
  (2 * length (buffer_from_hex s) <= String.length s)%nat.
Proof.
  enough (forall s,
    (2 * length (buffer_from_hex s) <= String.length s)%nat /\
    (forall a, 2 * length (buffer_from_hex (String a s)) <= S (String.length s))%nat)
    as H by apply H.
  clear s. induction s as [|b rest [IH1 IH2]]; split.
  - simpl; lia.
  - intros a; simpl; lia.
  - apply IH2.
  - intros a. cbn [buffer_from_hex].
    destruct (unhex a), (unhex b); cbn [length String.length]; lia.
Qed.

(** X2. A bitfield of [n] characters decodes to at most [n / 2] bytes, so
    it holds no chunk of index [4 * n] or more, and no chunk of negative
    index. *)
Theorem hasNeededChunks_out_of_range (b : string) (c : Z) :
  c < 0 \/ 4 * Z.of_nat (String.length b) <= c ->
  hasNeededChunks b [c] = false.
Proof.
  intros Hc. pose proof (buffer_from_hex_length b) as Hlen.
  unfold hasNeededChunks. destruct b as [|a b]; [reflexivity|].
  cbn [truthy_str negb orb length Nat.eqb hasNeededLoop].
  set (bytes := buffer_from_hex (String a b)) in *.
  destruct Hc as [Hneg|Hbig].
  - assert (c / 8 < 0) as Hdiv by (apply Z.div_lt_upper_bound; lia).
    unfold js_index. destruct (Z.ltb_spec (c / 8) 0); [|lia].
    now destruct (c / 8 <? _).
  - assert (Z.of_nat (length bytes) <= c / 8) as Hdiv.
    { apply Z.div_le_lower_bound; lia. }
    now destruct (Z.ltb_spec (c / 8) (Z.of_nat (length bytes))); [lia|].
Qed.

Lemma hasNeededChunks_out_of_range_witness :
  hasNeededChunks "ffff" [16] = false /\ hasNeededChunks "ffff" [-1] = false.
Proof.
  split.
  - apply hasNeededChunks_out_of_range. right. simpl. lia.
  - apply hasNeededChunks_out_of_range. left. lia.
Defined.

(** X3. The need match dominates the score: a peer that holds a needed chunk
    and has a non-negative [upCap] scores strictly higher than any peer that
    holds none, whatever their regions, latencies, capacities and
    completion. *)
Theorem scorePeer_need_dominates (useful useless : PeerData)
    (neededChunks : list Z) (requesterRegion : option string) :
  0 <= upCap useful ->
  hasNeededChunks (chunkBitfield useful) neededChunks = true ->
  hasNeededChunks (chunkBitfield useless) neededChunks = false ->
  (ps_score (scorePeer useless neededChunks requesterRegion)
   < ps_score (scorePeer useful neededChunks requesterRegion))%Q.
Proof.
  intros Hcap Hyes Hno. rewrite !scorePeer_score, Hyes, Hno.
  pose proof (capacityScore_bounds useful Hcap) as Hc1.
  assert (capacityScore useless <= 20)%Q as Hc2 by apply Q.le_min_r.
  pose proof (calculateLatencyScore_bounds (or_num (rttHint useful) 999)) as Hl1.
  pose proof (calculateLatencyScore_bounds (or_num (rttHint useless) 999)) as Hl2.
  pose proof (regionScore_bounds useful requesterRegion) as Hr1.
  pose proof (regionScore_bounds useless requesterRegion) as Hr2.
  set (c1 := capacityScore useful) in *. set (c2 := capacityScore useless) in *.
  set (l1 := calculateLatencyScore _) in *. set (l2 := calculateLatencyScore _) in *.
  set (r1 := regionScore useful _) in *. set (r2 := regionScore useless _) in *.
  destruct (isComplete useful), (isComplete useless); lra.
Qed.

(** A far, slow, incomplete peer with the chunk against a complete seeder
    in the requester's region without it. *)
Lemma scorePeer_need_dominates_witness :
  let useful := mkPeerData "a" "m" "01" 0 None None None 0 false in
  let useless := mkPeerData "b" "m" "fe" 99999999 (Some "eu") (Some 1) None 0 true in
  let needed := [0] in
  (ps_score (scorePeer useless needed (Some "eu"))
   < ps_score (scorePeer useful needed (Some "eu")))%Q.
Proof.
  intros useful useless needed.
  apply scorePeer_need_dominates; [simpl; lia | reflexivity | reflexivity].
Defined.

(** X4. [sortPeersByScore] rearranges its input (nothing is lost, added or
    duplicated) so that no entry is followed, anywhere later, by one with a
    higher score. *)
Theorem sortPeersByScore_sorted_permutation (scores : list PeerScore) :
  sortPeersByScore scores ≡ₚ scores
  /\ StronglySorted (fun u v => scoreGe (ps_score u) (ps_score v))
       (sortPeersByScore scores).
Proof.
  split; [apply sortPeersByScore_Permutation|].
  apply Sorted_StronglySorted; [|apply sortPeersByScore_Sorted].
  intros a b c Hab Hbc. eapply scoreGe_trans; eauto.
Qed.

Lemma insertByScore_filter (q : Q) (x : PeerScore) (l : list PeerScore) :
  List.filter (fun s => Qeq_bool (ps_score s) q) (insertByScore x l)
  = List.filter (fun s => Qeq_bool (ps_score s) q) (x :: l).
Proof.
  induction l as [|y l IH]; [reflexivity|].
  cbn [insertByScore].
  destruct (Qle_bool (ps_score y) (ps_score x)) eqn:Hle; [reflexivity|].
  cbn [List.filter] in *. rewrite IH.
  destruct (Qeq_bool (ps_score x) q) eqn:Hx; [|reflexivity].
  destruct (Qeq_bool (ps_score y) q) eqn:Hy; [|reflexivity].
  apply Qeq_bool_iff in Hx, Hy.
  assert (Qle_bool (ps_score y) (ps_score x) = true) as Hc.
  { apply Qle_bool_iff. rewrite Hx, Hy. apply Qle_refl. }
  congruence.
Qed.

(** X5. [sortPeersByScore] is stable: for every score value, the entries
    with that score come out in the order in which they went in. *)
Theorem sortPeersByScore_stable (q : Q) (scores : list PeerScore) :
  List.filter (fun s => Qeq_bool (ps_score s) q) (sortPeersByScore scores)
  = List.filter (fun s => Qeq_bool (ps_score s) q) scores.
Proof.
  induction scores as [|x l IH]; [reflexivity|].
  cbn [sortPeersByScore foldr]. fold (sortPeersByScore l).
  rewrite insertByScore_filter. cbn [List.filter]. now rewrite IH.
Qed.

(** ** routes/signaling.ts: the registry *)

Lemma list_filter_iff_elem {A} (P1 P2 : A -> Prop)
    `{!forall x, Decision (P1 x), !forall x, Decision (P2 x)} (l : list A) :
  (forall x, x ∈ l -> P1 x <-> P2 x) -> filter P1 l = filter P2 l.
Proof.
  induction l as [|a l IH]; intros Hiff; [reflexivity|].
  rewrite !filter_cons.
  rewrite IH by (intros x Hx; apply Hiff; now right).
  apply decide_ext, Hiff. left.
Qed.

Lemma redis_srem_smembers (m : gmap string (list string * option Z))
    (key member : string) :
  redis_smembers (redis_srem m key member) key
  = filter (fun x => x ≠ member) (redis_smembers m key).
Proof.
  unfold redis_srem, redis_smembers.
  destruct (m !! key) as [[members e]|] eqn:Hm.
  - destruct (filter _ members) as [|x l] eqn:Hf.
    + now rewrite lookup_delete_eq.
    + now rewrite lookup_insert_eq.
  - now rewrite Hm.
Qed.

Lemma redis_srem_other (m : gmap string (list string * option Z))
    (key member key' : string) :
  key' ≠ key -> redis_srem m key member !! key' = m !! key'.
Proof.
  intros Hne. unfold redis_srem.
  destruct (m !! key) as [[members e]|]; [|reflexivity].
  destruct (filter _ members).
  - now apply lookup_delete_ne.
  - now apply lookup_insert_ne.
Qed.

(** The records fetched for a list of members, and the set they leave. *)
Lemma fetchPeers_fold (st : Store) (mid : string) (peerIds : list string)
    (acc : list PeerData * gmap string (list string * option Z)) :
  let live pid := is_Some (peerKeys st !! PEER_KEY mid pid) in
  let out := foldl (fetchPeer st mid) acc peerIds in
  out.1 = acc.1 ++ omap (fun pid => redis_get (peerKeys st) (PEER_KEY mid pid)) peerIds
  /\ redis_smembers out.2 (PEERS_SET_KEY mid)
     = filter (fun x => x ∉ peerIds \/ live x)
         (redis_smembers acc.2 (PEERS_SET_KEY mid))
  /\ (forall key, key ≠ PEERS_SET_KEY mid -> out.2 !! key = acc.2 !! key).
Proof.
  cbv zeta. revert acc. induction peerIds as [|pid ids IH]; intros acc.
  - cbn [foldl omap list_omap]. rewrite app_nil_r. split; [reflexivity|]. split.
    + symmetry. induction (redis_smembers _ _) as [|x l IHl]; [reflexivity|].
      rewrite filter_cons_True by (left; apply not_elem_of_nil). now rewrite IHl.
    + reflexivity.
  - cbn [foldl omap list_omap].
    destruct (peerKeys st !! PEER_KEY mid pid) as [[data ttl]|] eqn:Hlk.
    + assert (fetchPeer st mid acc pid = (acc.1 ++ [data], acc.2)) as ->.
      { unfold fetchPeer, redis_get. now rewrite Hlk. }
      destruct (IH (acc.1 ++ [data], acc.2)) as (H1 & H2 & H3).
      cbn [fst snd] in H1, H2, H3. rewrite H1, H2. clear H1 H2 IH.
      unfold redis_get at 2. rewrite Hlk. cbn [fmap option_fmap option_map fst].
      split; [now rewrite <- app_assoc|]. split; [|exact H3].
      apply list_filter_iff. intros x. rewrite elem_of_cons. split.
      * intros [Hx|Hx]; [|now right].
        destruct (decide (x = pid)) as [->|Hne]; [right; now rewrite Hlk|].
        left. tauto.
      * intros [Hx|Hx]; [left; tauto | now right].
    + assert (fetchPeer st mid acc pid
              = (acc.1, redis_srem acc.2 (PEERS_SET_KEY mid) pid)) as ->.
      { unfold fetchPeer, redis_get. now rewrite Hlk. }
      destruct (IH (acc.1, redis_srem acc.2 (PEERS_SET_KEY mid) pid))
        as (H1 & H2 & H3).
      cbn [fst snd] in H1, H2, H3. rewrite H1, H2. clear H1 H2 IH.
      unfold redis_get at 2. rewrite Hlk. cbn [fmap option_fmap option_map].
      split; [reflexivity|]. split.
      * rewrite redis_srem_smembers, list_filter_filter.
        apply list_filter_iff. intros x. rewrite elem_of_cons. split.
        -- intros [[Hx|Hx] Hne]; [left; tauto | now right].
        -- intros [Hx|Hx].
           ++ split; [left; tauto | tauto].
           ++ split; [now right|]. intros ->. rewrite Hlk in Hx.
              now destruct Hx.
      * intros key Hkey. rewrite H3 by assumption.
        now apply redis_srem_other.
Qed.

Lemma peerInfo_is_Some (peersData : list PeerData) (neededChunks : list Z)
    (reg : option string) (peer : PeerData) :
  peer ∈ peersData ->
  is_Some (peerInfo peersData (scorePeer peer neededChunks reg)).
Proof.
  intros Hin. unfold peerInfo.
  destruct (List.find _ peersData) as [found|] eqn:Hfind; [eauto|].
  apply list_elem_of_In in Hin.
  apply (List.find_none _ _ Hfind) in Hin. cbn in Hin.
  now apply bool_decide_eq_false in Hin.
Qed.

(** The answer of POST /peers to a body that passes the validation, when
    the manifest has members. *)
Lemma getPeers_valid (MAX_PEERS_RESPONSE : Z) (req : GetPeersRequest)
    (st : Store) (neededChunks : list Z) :
  gp_neededChunks req = Some neededChunks ->
  truthy_str (gp_manifestId req) = true ->
  let mid := default "" (gp_manifestId req) in
  let candidates :=
    filter (fun pid => pid ∉ default [] (gp_excludePeers req))
      (redis_smembers (setKeys st) (PEERS_SET_KEY mid)) in
  let fetched := fetchPeers st mid candidates in
  redis_smembers (setKeys st) (PEERS_SET_KEY mid) ≠ [] ->
  exists infos,
    mapM (peerInfo fetched.1)
      (js_slice0 (sortPeersByScore
         (map (fun peer => scorePeer peer neededChunks (gp_region req)) fetched.1))
         MAX_PEERS_RESPONSE) = Some infos
    /\ getPeers MAX_PEERS_RESPONSE req st =
         (inr {| peers := infos; count := length infos |},
          withSetKeys st fetched.2).
Proof.
  intros Hneeded Hmid mid candidates fetched Hmembers.
  match goal with
  | |- exists infos, mapM ?f ?l = Some infos /\ _ =>
      assert (is_Some (mapM f l)) as [infos Hinfos]
  end.
  { apply mapM_is_Some, Forall_forall. intros scored Hin.
    destruct (js_slice0_take
      (sortPeersByScore
         (map (fun peer => scorePeer peer neededChunks (gp_region req)) fetched.1))
      MAX_PEERS_RESPONSE) as (k & Hk & _).
    rewrite Hk in Hin. apply subseteq_take in Hin.
    rewrite sortPeersByScore_Permutation in Hin.
    apply list_elem_of_In, in_map_iff in Hin as (peer & <- & Hpeer).
    apply peerInfo_is_Some. now apply list_elem_of_In. }
  exists infos. split; [assumption|].
  unfold getPeers. rewrite Hneeded, Hmid. cbn [negb].
  assert ((length (redis_smembers (setKeys st) (PEERS_SET_KEY mid)) =? 0)%nat
          = false) as Hlen.
  { clear -Hmembers. now destruct (redis_smembers _ _). }
  fold mid. rewrite Hlen. fold candidates. fold fetched.
  now rewrite Hinfos.
Qed.

Lemma length_omap_get (m : gmap string (PeerData * Z)) (key : string -> string)
    (l : list string) :
  length (omap (fun pid => redis_get m (key pid)) l)
  = length (filter (fun pid => is_Some (m !! key pid)) l).
Proof.
  induction l as [|x l IH]; [reflexivity|].
  cbn [omap list_omap]. rewrite filter_cons. unfold redis_get at 1.
  destruct (m !! key x) as [[d t]|] eqn:Hx; cbn [fmap option_fmap option_map].
  - rewrite decide_True by eauto. cbn [length]. now rewrite IH.
  - rewrite decide_False by (now intros [? ?]). exact IH.
Qed.

(** X6. POST /peers answers InvalidRequest, with the store as it was,
    exactly to a body without [neededChunks] or without a non-empty
    [manifestId]; to every other body it answers with a peer list and never
    with another error. With a non-negative limit the list has as many
    entries as the limit allows among the members of the manifest that are
    not excluded and have a stored record, and [count] is its length. *)
Theorem getPeers_answers (MAX_PEERS_RESPONSE : Z) (req : GetPeersRequest)
    (st : Store) :
  let mid := default "" (gp_manifestId req) in
  let excl := default [] (gp_excludePeers req) in
  (gp_neededChunks req = None \/ truthy_str (gp_manifestId req) = false ->
   getPeers MAX_PEERS_RESPONSE req st = (inl InvalidRequest, st))
  /\ (is_Some (gp_neededChunks req) -> truthy_str (gp_manifestId req) = true ->
      exists resp st',
        getPeers MAX_PEERS_RESPONSE req st = (inr resp, st')
        /\ count resp = length (peers resp)
        /\ (0 <= MAX_PEERS_RESPONSE ->
            length (peers resp) =
              Nat.min (Z.to_nat MAX_PEERS_RESPONSE)
                (length (filter
                   (fun pid => (pid ∉ excl)
                               /\ is_Some (peerKeys st !! PEER_KEY mid pid))
                   (redis_smembers (setKeys st) (PEERS_SET_KEY mid)))))).
Proof.
  intros mid excl. split.
  - unfold getPeers. intros [->| ->]; [reflexivity|].
    now destruct (gp_neededChunks req).
  - intros [neededChunks Hneeded] Hmid.
    destruct (redis_smembers (setKeys st) (PEERS_SET_KEY mid)) as [|m0 ms] eqn:Hm.
    + exists {| peers := []; count := 0 |}, st. split; [|split].
      * unfold getPeers. rewrite Hneeded, Hmid. cbn [negb]. fold mid.
        now rewrite Hm.
      * reflexivity.
      * intros _. cbn. lia.
    + destruct (getPeers_valid MAX_PEERS_RESPONSE req st neededChunks Hneeded Hmid)
        as (infos & Hinfos & Hrun).
      { fold mid. rewrite Hm. discriminate. }
      fold mid excl in Hinfos, Hrun. rewrite Hm in Hinfos, Hrun.
      eexists _, _. split; [exact Hrun|]. cbn [peers count].
      split; [reflexivity|]. intros Hmax.
      apply mapM_Some_1, Forall2_length in Hinfos. rewrite <- Hinfos.
      unfold js_slice0. destruct (Z.ltb_spec MAX_PEERS_RESPONSE 0); [lia|].
      rewrite length_take. f_equal.
      rewrite (Permutation_length (sortPeersByScore_Permutation _)).
      rewrite length_map.
      destruct (fetchPeers_fold st mid (filter (fun pid => pid ∉ excl) (m0 :: ms))
                  ([], setKeys st)) as (H1 & _).
      unfold fetchPeers. rewrite H1. cbn [fst app].
      rewrite length_omap_get, list_filter_filter.
      f_equal. apply list_filter_iff. tauto.
Qed.

(** A query without [neededChunks], and the first three of five live
    members. *)
Lemma getPeers_answers_witness :
  let peer id := mkAnnounceRequest (Some id) (Some "M") (Some "ff") None None None None in
  let st := foldr (fun id st => (announce 300 1000 (peer id) st).2) emptyStore
              ["a"; "b"; "c"; "d"; "e"] in
  getPeers 3 (mkGetPeersRequest (Some "M") None None None) st
    = (inl InvalidRequest, st)
  /\ exists resp st',
       getPeers 3 (mkGetPeersRequest (Some "M") (Some [0]) None None) st
         = (inr resp, st')
       /\ length (peers resp) = 3%nat.
Proof.
  intros peer st. split.
  - apply (getPeers_answers 3 (mkGetPeersRequest (Some "M") None None None) st).
    now left.
  - destruct (proj2 (getPeers_answers 3
                (mkGetPeersRequest (Some "M") (Some [0]) None None) st))
      as (resp & st' & Hrun & _ & Hlen).
    + now exists [0].
    + reflexivity.
    + exists resp, st'. split; [exact Hrun|].
      rewrite Hlen by lia. vm_compute. reflexivity.
Defined.

(** X7. When the manifest has no member, or every member is excluded, a
    valid POST /peers answers with the empty list and count 0 and leaves the
    store as it is. *)
Theorem getPeers_all_excluded (MAX_PEERS_RESPONSE : Z) (req : GetPeersRequest)
    (st : Store) :
  is_Some (gp_neededChunks req) -> truthy_str (gp_manifestId req) = true ->
  (forall pid,
     pid ∈ redis_smembers (setKeys st)
             (PEERS_SET_KEY (default "" (gp_manifestId req))) ->
     pid ∈ default [] (gp_excludePeers req)) ->
  getPeers MAX_PEERS_RESPONSE req st = (inr {| peers := []; count := 0 |}, st).
Proof.
  intros [neededChunks Hneeded] Hmid Hall.
  unfold getPeers. rewrite Hneeded, Hmid. cbn [negb].
  destruct (length _ =? 0)%nat; [reflexivity|].
  assert (filter (fun pid => pid ∉ default [] (gp_excludePeers req))
            (redis_smembers (setKeys st)
               (PEERS_SET_KEY (default "" (gp_manifestId req)))) = []) as ->.
  { induction (redis_smembers _ _) as [|x l IH]; [reflexivity|].
    rewrite filter_cons_False by (intros Hx; apply Hx, Hall; left).
    apply IH. intros pid Hpid. apply Hall. now right. }
  assert (js_slice0 (@nil PeerScore) MAX_PEERS_RESPONSE = []) as Hslice.
  { unfold js_slice0. destruct (MAX_PEERS_RESPONSE <? 0); apply take_nil. }
  cbn. rewrite Hslice. cbn. now destruct st.
Qed.

Lemma getPeers_all_excluded_witness :
  let req := mkAnnounceRequest (Some "A") (Some "M") (Some "ff") None None None None in
  let st := (announce 300 1000 req emptyStore).2 in
  getPeers 6 (mkGetPeersRequest (Some "M") (Some [0]) None (Some ["A"])) st
    = (inr {| peers := []; count := 0 |}, st)
  /\ getPeers 6 (mkGetPeersRequest (Some "other") (Some [0]) None None) st
    = (inr {| peers := []; count := 0 |}, st).
Proof.
  intros req st. split.
  - apply getPeers_all_excluded; [now exists [0] | reflexivity |].
    intros pid Hpid. vm_compute in Hpid.
    apply list_elem_of_singleton in Hpid as ->. left.
  - apply getPeers_all_excluded; [now exists [0] | reflexivity |].
    intros pid Hpid. vm_compute in Hpid. now apply elem_of_nil in Hpid.
Defined.

(** X8. A valid POST /peers prunes the membership set lazily: the members
    that stay are the excluded ones and those with a stored record, in their
    order; the stale members it looked at are removed; peer records, signals
    and the sets of other manifests are not touched. *)
Theorem getPeers_prunes_stale (MAX_PEERS_RESPONSE : Z) (req : GetPeersRequest)
    (st : Store) :
  is_Some (gp_neededChunks req) -> truthy_str (gp_manifestId req) = true ->
  let mid := default "" (gp_manifestId req) in
  let excl := default [] (gp_excludePeers req) in
  let st' := (getPeers MAX_PEERS_RESPONSE req st).2 in
  redis_smembers (setKeys st') (PEERS_SET_KEY mid)
    = filter (fun pid => (pid ∈ excl) \/ is_Some (peerKeys st !! PEER_KEY mid pid))
        (redis_smembers (setKeys st) (PEERS_SET_KEY mid))
  /\ (forall key, key ≠ PEERS_SET_KEY mid -> setKeys st' !! key = setKeys st !! key)
  /\ peerKeys st' = peerKeys st /\ signalKeys st' = signalKeys st.
Proof.
  intros [neededChunks Hneeded] Hmid mid excl st'. subst st'.
  destruct (redis_smembers (setKeys st) (PEERS_SET_KEY mid)) as [|m0 ms] eqn:Hm.
  - assert (getPeers MAX_PEERS_RESPONSE req st
            = (inr {| peers := []; count := 0 |}, st)) as ->.
    { unfold getPeers. rewrite Hneeded, Hmid. cbn [negb]. fold mid.
      now rewrite Hm. }
    cbn [snd]. now rewrite Hm.
  - destruct (getPeers_valid MAX_PEERS_RESPONSE req st neededChunks Hneeded Hmid)
      as (infos & _ & ->).
    { fold mid. rewrite Hm. discriminate. }
    fold mid excl. cbn [snd withSetKeys setKeys peerKeys signalKeys].
    destruct (fetchPeers_fold st mid
                (filter (fun pid => pid ∉ excl)
                   (redis_smembers (setKeys st) (PEERS_SET_KEY mid)))
                ([], setKeys st)) as (_ & H2 & H3).
    cbn [snd] in H2, H3. unfold fetchPeers.
    split; [|split; [exact H3 | split; reflexivity]].
    rewrite H2, Hm. apply list_filter_iff_elem. intros x Hx.
    rewrite list_elem_of_filter. split.
    + intros [Hn|Hl]; [|now right].
      destruct (decide (x ∈ excl)); [now left|]. exfalso. apply Hn. now split.
    + intros [He|Hl]; [|now right]. left. now intros [Hne _].
Qed.

(** Member [ghost] has no record and is removed; the excluded [gone] is not
    looked at and stays. *)
Lemma getPeers_prunes_stale_witness :
  let req := mkAnnounceRequest (Some "A") (Some "M") (Some "ff") None None None None in
  let st0 := (announce 300 1000 req emptyStore).2 in
  let st := withSetKeys st0
              {[ "peers:M"%string := (["ghost"; "A"; "gone"]%string, Some 300) ]} in
  let query := mkGetPeersRequest (Some "M") (Some [0]) None (Some ["gone"]) in
  redis_smembers (setKeys (getPeers 6 query st).2) "peers:M" = ["A"; "gone"].
Proof.
  intros req st0 st query.
  destruct (getPeers_prunes_stale 6 query st) as (H & _).
  - now exists [0].
  - reflexivity.
  - etransitivity; [exact H|]. vm_compute. reflexivity.
Defined.

Lemma peerInfo_record (peersData : list PeerData) (scored : PeerScore)
    (info : PeerInfo) :
  peerInfo peersData scored = Some info ->
  pi_score info = ps_score scored
  /\ pi_peerId info = ps_peerId scored
  /\ exists peer, peer ∈ peersData /\ peerId peer = pi_peerId info
       /\ chunkBitfield peer = pi_chunkBitfield info
       /\ region peer = pi_region info.
Proof.
  unfold peerInfo.
  destruct (List.find _ peersData) as [peer|] eqn:Hfind; [|discriminate].
  intros [= <-]; cbn. apply List.find_some in Hfind as [Hin Heq].
  apply bool_decide_eq_true in Heq.
  split; [reflexivity|]. split; [assumption|].
  exists peer. split; [now apply list_elem_of_In | now repeat split].
Qed.

(** X9. Every peer descriptor a POST /peers returns comes from the store:
    its peerId, chunkBitfield and region are those of the record stored for
    a member of the manifest that is not excluded, and its score is the
    score [scorePeer] gives, for the request's needed chunks and region, to
    such a record with the same peerId. *)
Theorem getPeers_returns_stored_peers (MAX_PEERS_RESPONSE : Z)
    (req : GetPeersRequest) (st st' : Store) (resp : GetPeersResponse)
    (info : PeerInfo) :
  getPeers MAX_PEERS_RESPONSE req st = (inr resp, st') ->
  info ∈ peers resp ->
  let mid := default "" (gp_manifestId req) in
  let fetchable pid data :=
    pid ∈ redis_smembers (setKeys st) (PEERS_SET_KEY mid)
    /\ (pid ∉ default [] (gp_excludePeers req))
    /\ redis_get (peerKeys st) (PEER_KEY mid pid) = Some data in
  (exists pid data, fetchable pid data
     /\ pi_peerId info = peerId data
     /\ pi_chunkBitfield info = chunkBitfield data
     /\ pi_region info = region data)
  /\ (exists pid data, fetchable pid data
        /\ pi_peerId info = peerId data
        /\ pi_score info =
             ps_score (scorePeer data (default [] (gp_neededChunks req))
                         (gp_region req))).
Proof.
  intros Hrun Hin mid fetchable.
  destruct (gp_neededChunks req) as [neededChunks|] eqn:Hneeded.
  2:{ unfold getPeers in Hrun. now rewrite Hneeded in Hrun. }
  destruct (truthy_str (gp_manifestId req)) eqn:Hmid.
  2:{ unfold getPeers in Hrun. now rewrite Hneeded, Hmid in Hrun. }
  destruct (redis_smembers (setKeys st) (PEERS_SET_KEY mid)) as [|m0 ms] eqn:Hm.
  { unfold getPeers in Hrun. rewrite Hneeded, Hmid in Hrun. cbn [negb] in Hrun.
    fold mid in Hrun. rewrite Hm in Hrun. injection Hrun as <- _.
    now apply elem_of_nil in Hin. }
  destruct (getPeers_valid MAX_PEERS_RESPONSE req st neededChunks Hneeded Hmid)
    as (infos & Hinfos & Hrun').
  { fold mid. rewrite Hm. discriminate. }
  rewrite Hrun' in Hrun. injection Hrun as <- _. cbn [peers] in Hin.
  fold mid in Hinfos. rewrite Hm in Hinfos. rewrite <- Hm in Hinfos.
  set (cands := filter _ _) in Hinfos.
  assert (forall data, data ∈ (fetchPeers st mid cands).1 ->
            exists pid, fetchable pid data) as Hfetch.
  { intros data Hdata. apply fetchPeers_from in Hdata as (pid & Hpid & Hget).
    apply list_elem_of_filter in Hpid as [Hex Hmem].
    exists pid. unfold fetchable. rewrite Hm in Hmem. now repeat split. }
  apply mapM_Some_1 in Hinfos.
  assert (exists scored, scored ∈ js_slice0 (sortPeersByScore
            (map (fun peer => scorePeer peer neededChunks (gp_region req))
               (fetchPeers st mid cands).1)) MAX_PEERS_RESPONSE
          /\ peerInfo (fetchPeers st mid cands).1 scored = Some info)
    as (scored & Hscored & Hinfo).
  { clear -Hinfos Hin. induction Hinfos as [|x y l l' Hxy _ IH].
    - now apply elem_of_nil in Hin.
    - apply elem_of_cons in Hin as [->|Hin].
      + exists x. split; [left | assumption].
      + destruct (IH Hin) as (s & Hs & Hi). exists s. split; [now right | assumption]. }
  apply peerInfo_record in Hinfo as (Hscore & Hid & peer & Hpeer & Hp1 & Hp2 & Hp3).
  split.
  - destruct (Hfetch peer Hpeer) as [pid Hpid].
    exists pid, peer. split; [exact Hpid | repeat split; congruence].
  - destruct (js_slice0_take (sortPeersByScore
            (map (fun peer => scorePeer peer neededChunks (gp_region req))
               (fetchPeers st mid cands).1)) MAX_PEERS_RESPONSE) as (k & Hk & _).
    rewrite Hk in Hscored. apply subseteq_take in Hscored.
    rewrite sortPeersByScore_Permutation in Hscored.
    apply list_elem_of_In, in_map_iff in Hscored as (data & <- & Hdata).
    apply list_elem_of_In in Hdata.
    destruct (Hfetch data Hdata) as [pid Hpid].
    exists pid, data. split; [assumption|]. split; [exact Hid | exact Hscore].
Qed.

Lemma getPeers_returns_stored_peers_witness :
  let req := mkAnnounceRequest (Some "A") (Some "M") (Some "ff") None
               (Some "eu") None None in
  let st := (announce 300 1000 req emptyStore).2 in
  let query := mkGetPeersRequest (Some "M") (Some [0]) (Some "eu") None in
  match (getPeers 6 query st).1 with
  | inr resp =>
      length (peers resp) = 1%nat
      /\ forall info, info ∈ peers resp ->
           exists pid data,
             redis_get (peerKeys st) (PEER_KEY "M" pid) = Some data
             /\ pi_peerId info = peerId data
             /\ pi_chunkBitfield info = chunkBitfield data
  | inl _ => False
  end.
Proof.
  intros req st query.
  destruct (getPeers 6 query st) as [[e|resp] st'] eqn:Hrun;
    [vm_compute in Hrun; discriminate|].
  cbn [fst]. split.
  - vm_compute in Hrun. now injection Hrun as <- _.
  - intros info Hin.
    destruct (getPeers_returns_stored_peers 6 query st st' resp info Hrun Hin)
      as [(pid & data & (_ & _ & Hget) & Hid & Hbf & _) _].
    exists pid, data. now repeat split.
Defined.

(** X10. POST /announce succeeds exactly when clientId, manifestId and
    chunkBitfield are present and non-empty and the configured TTL is
    positive; it answers InvalidRequest exactly when one of the three fields
    is missing or empty; and an announce that does not succeed writes
    nothing: neither the record nor the membership. *)
Theorem announce_outcome (PEER_TTL now : Z) (req : AnnounceRequest) (st : Store) :
  ((exists resp, (announce PEER_TTL now req st).1 = inr resp)
     <-> announceValid req = true /\ 0 < PEER_TTL)
  /\ ((announce PEER_TTL now req st).1 = inl InvalidRequest
        <-> announceValid req = false)
  /\ (forall e, (announce PEER_TTL now req st).1 = inl e ->
        (announce PEER_TTL now req st).2 = st).
Proof.
  destruct (announceValid req) eqn:Hvalid.
  - destruct (Z.ltb_spec 0 PEER_TTL) as [Hpos|Hneg].
    + rewrite (announce_store PEER_TTL now req st Hpos Hvalid). cbn [fst snd].
      split; [|split].
      * split; [now intros _ | intros _; eauto].
      * split; discriminate.
      * discriminate.
    + assert (announce PEER_TTL now req st = (inl InternalError, st)) as ->.
      { unfold announce, redis_setex. rewrite Hvalid. cbn [negb].
        now destruct (Z.ltb_spec 0 PEER_TTL); [lia|]. }
      cbn [fst snd]. split; [|split].
      * split; [intros [? [=]] | intros [_ ?]; lia].
      * split; discriminate.
      * reflexivity.
  - assert (announce PEER_TTL now req st = (inl InvalidRequest, st)) as ->.
    { unfold announce. now rewrite Hvalid. }
    cbn [fst snd]. split; [|split].
    + split; [intros [? [=]] | intros [[=] _]].
    + split; reflexivity.
    + reflexivity.
Qed.

(** X11. An accepted announce makes the peer a member of its manifest's
    set, keeps every member the set had, adds at most one entry and keeps a
    duplicate-free member list duplicate-free; the sets of other manifests
    are not touched. *)
Theorem announce_membership (PEER_TTL now : Z) (req : AnnounceRequest)
    (st : Store) :
  0 < PEER_TTL -> announceValid req = true ->
  let pid := default "" (ar_clientId req) in
  let setKey := PEERS_SET_KEY (default "" (ar_manifestId req)) in
  let before := redis_smembers (setKeys st) setKey in
  let st' := (announce PEER_TTL now req st).2 in
  let after := redis_smembers (setKeys st') setKey in
  pid ∈ after
  /\ (forall x, x ∈ before -> x ∈ after)
  /\ (forall x, x ∈ after -> x = pid \/ x ∈ before)
  /\ (NoDup before -> NoDup after)
  /\ (forall key, key ≠ setKey -> setKeys st' !! key = setKeys st !! key).
Proof.
  intros Hpos Hvalid pid setKey before st' after. subst st' after.
  rewrite (announce_store PEER_TTL now req st Hpos Hvalid).
  cbn [snd setKeys announcedPeer peerId manifestId]. fold pid setKey.
  unfold redis_smembers at 1 2 3 4. rewrite !lookup_insert_eq.
  subst before. unfold redis_smembers, membersAfter.
  destruct (setKeys st !! setKey) as [[members e]|].
  - destruct (decide (pid ∈ members)) as [Hin|Hnin].
    + repeat split; auto. intros key Hkey. now apply lookup_insert_ne.
    + split; [apply elem_of_app; right; left|].
      split; [intros x Hx; apply elem_of_app; now left|].
      split.
      { intros x [Hx|Hx]%elem_of_app; [now right|].
        apply list_elem_of_singleton in Hx. now left. }
      split.
      { intros Hnd. apply NoDup_app. split; [assumption|]. split.
        - intros x Hx Hx'. apply list_elem_of_singleton in Hx'. congruence.
        - apply NoDup_singleton. }
      intros key Hkey. now apply lookup_insert_ne.
  - split; [left|]. split; [intros x Hx; now apply elem_of_nil in Hx|].
    split; [intros x Hx; apply list_elem_of_singleton in Hx; now left|].
    split; [intros _; apply NoDup_singleton|].
    intros key Hkey. now apply lookup_insert_ne.
Qed.

Lemma announce_membership_witness :
  let first := mkAnnounceRequest (Some "A") (Some "M") (Some "ff") None None None None in
  let second := mkAnnounceRequest (Some "B") (Some "M") (Some "0f") None None None None in
  let st := (announce 300 1000 first emptyStore).2 in
  "B"%string ∈ redis_smembers (setKeys (announce 300 2000 second st).2) "peers:M"
  /\ "A"%string ∈ redis_smembers (setKeys (announce 300 2000 second st).2) "peers:M".
Proof.
  intros first second st.
  destruct (announce_membership 300 2000 second st ltac:(lia) eq_refl)
    as (HB & Hkeep & _).
  split; [exact HB|]. apply Hkeep. vm_compute. left.
Defined.

(** X12. Completing pays: when the stored record is not yet complete,
    [markComplete] leaves a record that [scorePeer] scores exactly 20 points
    higher, for every needed-chunk list and requester region, with the same
    need match. *)
Theorem markComplete_adds_bonus (PEER_TTL now : Z) (mid pid : string)
    (st : Store) (old : PeerData) (neededChunks : list Z)
    (requesterRegion : option string) :
  0 < PEER_TTL ->
  redis_get (peerKeys st) (PEER_KEY mid pid) = Some old ->
  isComplete old = false ->
  exists new,
    redis_get (peerKeys (markComplete PEER_TTL now mid pid st).2) (PEER_KEY mid pid)
      = Some new
    /\ (ps_score (scorePeer new neededChunks requesterRegion)
        == ps_score (scorePeer old neededChunks requesterRegion) + 20)%Q
    /\ ps_hasNeeded (scorePeer new neededChunks requesterRegion)
       = ps_hasNeeded (scorePeer old neededChunks requesterRegion).
Proof.
  intros Hpos Hold Hinc. unfold markComplete. rewrite Hold.
  rewrite redis_setex_pos by assumption.
  cbn [snd withPeerKeys peerKeys]. unfold redis_get at 1.
  rewrite lookup_insert_eq. cbn [fmap option_fmap option_map fst].
  eexists. split; [reflexivity|]. split; [|reflexivity].
  rewrite !scorePeer_score. cbn [chunkBitfield rttHint isComplete].
  rewrite Hinc.
  match goal with
  | |- context [regionScore ?p requesterRegion] =>
      change (regionScore p requesterRegion)
        with (regionScore old requesterRegion) at 1
  end.
  match goal with
  | |- context [capacityScore ?p] =>
      change (capacityScore p) with (capacityScore old) at 1
  end.
  set (c := capacityScore old). set (r := regionScore old requesterRegion).
  set (l := calculateLatencyScore _).
  destruct (hasNeededChunks _ _); lra.
Qed.

Lemma markComplete_adds_bonus_witness :
  let req := mkAnnounceRequest (Some "A") (Some "M") (Some "ff") None None None None in
  let st := (announce 300 1000 req emptyStore).2 in
  let needed := [0] in
  exists new,
    redis_get (peerKeys (markComplete 300 2000 "M" "A" st).2) (PEER_KEY "M" "A")
      = Some new
    /\ (ps_score (scorePeer new needed None) == 125)%Q.
Proof.
  intros req st needed.
  destruct (markComplete_adds_bonus 300 2000 "M" "A" st (announcedPeer 1000 req)
              needed None) as (new & Hget & Hscore & _).
  - lia.
  - vm_compute. reflexivity.
  - reflexivity.
  - exists new. split; [exact Hget|]. rewrite Hscore. reflexivity.
Defined.

(** X13. Completing twice is completing once, at the later time: a second
    [markComplete] of the same peer gives the answer and the store that it
    alone, run on the first store, would give. *)
Theorem markComplete_twice (PEER_TTL now1 now2 : Z) (mid pid : string)
    (st : Store) :
  markComplete PEER_TTL now2 mid pid (markComplete PEER_TTL now1 mid pid st).2
  = markComplete PEER_TTL now2 mid pid st.
Proof.
  unfold markComplete, redis_get, redis_setex.
  destruct (peerKeys st !! PEER_KEY mid pid) as [[old ttl]|] eqn:Hlk;
    cbn [fmap option_fmap option_map fst].
  - destruct (0 <? PEER_TTL) eqn:Hpos; cbn [snd].
    + cbn [withPeerKeys peerKeys]. rewrite lookup_insert_eq.
      cbn [fmap option_fmap option_map fst].
      cbn [peerId manifestId chunkBitfield upCap region rttHint version].
      unfold withPeerKeys; cbn [peerKeys signalKeys setKeys].
      now rewrite insert_insert_eq.
    + rewrite Hlk. reflexivity.
  - cbn [snd]. now rewrite Hlk.
Qed.

(** A selection on a manifest whose only member has a record. *)
Lemma getPeers_single (MAX_PEERS_RESPONSE : Z) (st : Store)
    (mid : option string) (pid : string) (data : PeerData)
    (neededChunks : list Z) (reg : option string)
    (excludePeers : option (list string)) :
  1 <= MAX_PEERS_RESPONSE -> truthy_str mid = true ->
  redis_smembers (setKeys st) (PEERS_SET_KEY (default "" mid)) = [pid] ->
  pid ∉ default [] excludePeers ->
  redis_get (peerKeys st) (PEER_KEY (default "" mid) pid) = Some data ->
  getPeers MAX_PEERS_RESPONSE
    (mkGetPeersRequest mid (Some neededChunks) reg excludePeers) st =
    (inr {| peers := [ {| pi_peerId := peerId data;
                          pi_chunkBitfield := chunkBitfield data;
                          pi_region := region data;
                          pi_score := ps_score (scorePeer data neededChunks reg) |} ];
            count := 1 |}, st).
Proof.
  intros Hmax Hmid Hmembers Hexcl Hget.
  unfold getPeers. cbn [gp_neededChunks gp_manifestId gp_region gp_excludePeers].
  rewrite Hmid, Hmembers. cbn [negb length Nat.eqb].
  rewrite filter_cons_True by assumption. rewrite filter_nil.
  assert (fetchPeers st (default "" mid) [pid] = ([data], setKeys st)) as ->.
  { unfold fetchPeers, fetchPeer. cbn [foldl]. now rewrite Hget. }
  cbn [fst snd map sortPeersByScore foldr insertByScore].
  assert (js_slice0 [scorePeer data neededChunks reg] MAX_PEERS_RESPONSE
          = [scorePeer data neededChunks reg]) as ->.
  { unfold js_slice0. destruct (Z.ltb_spec MAX_PEERS_RESPONSE 0); [lia|].
    apply take_ge. cbn [length]. lia. }
  assert (peerInfo [data] (scorePeer data neededChunks reg)
          = Some {| pi_peerId := peerId data;
                    pi_chunkBitfield := chunkBitfield data;
                    pi_region := region data;
                    pi_score := ps_score (scorePeer data neededChunks reg) |})
    as Hinfo.
  { unfold peerInfo. cbn [List.find ps_peerId scorePeer].
    now rewrite bool_decide_eq_true_2 by reflexivity. }
  cbn [mapM]. rewrite Hinfo. cbn. now destruct st.
Qed.

(** X14. The first announcer of a manifest is found: when the manifest has
    no membership set yet, an accepted announce followed by a selection for
    that manifest, with the announcer not excluded and a limit of at least
    one, returns exactly the announcer's descriptor (its peerId, bitfield,
    region and score) and changes nothing; if the bitfield holds a needed
    chunk and no negative [upCap] was announced, the score is at least
    105. *)
Theorem announce_then_getPeers (PEER_TTL MAX_PEERS_RESPONSE now : Z)
    (req : AnnounceRequest) (st : Store) (neededChunks : list Z)
    (reg : option string) (excludePeers : option (list string)) :
  0 < PEER_TTL -> 1 <= MAX_PEERS_RESPONSE -> announceValid req = true ->
  setKeys st !! PEERS_SET_KEY (default "" (ar_manifestId req)) = None ->
  default "" (ar_clientId req) ∉ default [] excludePeers ->
  let st1 := (announce PEER_TTL now req st).2 in
  let query := mkGetPeersRequest (ar_manifestId req) (Some neededChunks) reg
                 excludePeers in
  let scored := scorePeer (announcedPeer now req) neededChunks reg in
  getPeers MAX_PEERS_RESPONSE query st1 =
    (inr {| peers := [ {| pi_peerId := default "" (ar_clientId req);
                          pi_chunkBitfield := default "" (ar_chunkBitfield req);
                          pi_region := ar_region req;
                          pi_score := ps_score scored |} ];
            count := 1 |}, st1)
  /\ (hasNeededChunks (default "" (ar_chunkBitfield req)) neededChunks = true ->
      0 <= or_num (ar_upCap req) 0 ->
      ps_hasNeeded scored = true /\ (105 <= ps_score scored)%Q).
Proof.
  intros Hpos Hmax Hvalid Hnew Hexcl st1 query scored. split.
  - assert (truthy_str (ar_manifestId req) = true) as Hmid.
    { unfold announceValid in Hvalid.
      now destruct (truthy_str (ar_clientId req)), (truthy_str (ar_manifestId req)). }
    apply (getPeers_single MAX_PEERS_RESPONSE st1 (ar_manifestId req)
             (default "" (ar_clientId req)) (announcedPeer now req));
      try assumption; subst st1;
      rewrite (announce_store PEER_TTL now req st Hpos Hvalid);
      cbn [snd announcedPeer peerId manifestId setKeys peerKeys].
    + unfold redis_smembers. rewrite lookup_insert_eq, Hnew. reflexivity.
    + unfold redis_get. now rewrite lookup_insert_eq.
  - intros Hneed Hcap. subst scored. split.
    + cbn [scorePeer ps_hasNeeded announcedPeer chunkBitfield]. exact Hneed.
    + rewrite scorePeer_score. cbn [announcedPeer chunkBitfield isComplete rttHint].
      rewrite Hneed.
      pose proof (capacityScore_bounds (announcedPeer now req)) as Hc.
      cbn [announcedPeer upCap] in Hc. specialize (Hc Hcap).
      pose proof (calculateLatencyScore_bounds (or_num (ar_rttHint req) 999)) as Hl.
      pose proof (regionScore_bounds (announcedPeer now req) reg) as Hr.
      set (c := capacityScore _) in *. set (l := calculateLatencyScore _) in *.
      set (r := regionScore _ _) in *. lra.
Qed.

(** Peer A announces chunk 3 of manifest M; a selection for chunk 3 finds
    it. *)
Lemma announce_then_getPeers_witness :
  let req := mkAnnounceRequest (Some "A") (Some "M") (Some "08") (Some 1048576)
               None None None in
  let st1 := (announce 300 1000 req emptyStore).2 in
  let needed := [3] in
  let query := mkGetPeersRequest (Some "M") (Some needed) None None in
  exists s, (105 <= s)%Q
    /\ getPeers 6 query st1 =
         (inr {| peers := [mkPeerInfo "A" "08" None s]; count := 1 |}, st1).
Proof.
  intros req st1 needed query.
  destruct (announce_then_getPeers 300 6 1000 req emptyStore needed None None)
    as (Hrun & Hscore).
  - lia.
  - lia.
  - reflexivity.
  - reflexivity.
  - apply not_elem_of_nil.
  - eexists. split; [|exact Hrun].
    apply Hscore; [reflexivity | simpl; lia].
Defined.

(** ** routes/signaling.ts: the relay *)

(** The loop of GET /signals/:clientId over distinct keys that are all
    present. *)
Lemma drain_fold (keys : list string) (acc : list SignalMessage)
    (m : gmap string (SignalMessage * Z)) :
  NoDup keys -> (forall k, k ∈ keys -> is_Some (m !! k)) ->
  let out := foldl drainKey (acc, m) keys in
  (exists msgs, out.1 = acc ++ msgs
     /\ Forall2 (fun k msg => redis_get m k = Some msg) keys msgs)
  /\ (forall k, out.2 !! k = if decide (k ∈ keys) then None else m !! k).
Proof.
  cbv zeta. revert acc m.
  induction keys as [|k0 keys IH]; intros acc m Hnd Hall.
  - cbn [foldl fst snd]. split.
    + exists []. split; [now rewrite app_nil_r | constructor].
    + intros k. rewrite decide_False by apply not_elem_of_nil. reflexivity.
  - apply NoDup_cons in Hnd as [Hk0 Hnd].
    destruct (Hall k0 ltac:(left)) as [[v t] Hv].
    cbn [foldl].
    assert (drainKey (acc, m) k0 = (acc ++ [v], delete k0 m)) as ->.
    { unfold drainKey, redis_get, redis_del. cbn [fst snd]. now rewrite Hv. }
    destruct (IH (acc ++ [v]) (delete k0 m) Hnd) as ((msgs & H1 & H2) & H3).
    { intros k Hk. rewrite lookup_delete_ne by (intros ->; contradiction).
      apply Hall. now right. }
    split.
    + exists (v :: msgs). split; [now rewrite H1, <- app_assoc|].
      constructor.
      * unfold redis_get. now rewrite Hv.
      * clear -H2 Hk0. induction H2 as [|k msg ks ms Hk _ IH']; constructor.
        -- unfold redis_get in *. rewrite lookup_delete_ne in Hk; [assumption|].
           intros ->. apply Hk0. left.
        -- apply IH'. intros Hin. apply Hk0. now right.
    + intros k. rewrite H3. destruct (decide (k = k0)) as [->|Hne].
      * rewrite (decide_True (P := k0 ∈ k0 :: keys)) by left.
        destruct (decide (k0 ∈ keys)); [reflexivity | apply lookup_delete_eq].
      * rewrite lookup_delete_ne by congruence.
        destruct (decide (k ∈ keys)) as [Hin|Hnin].
        -- now rewrite decide_True by now right.
        -- rewrite decide_False; [reflexivity|].
           intros [?|?]%elem_of_cons; contradiction.
Qed.

(** X15. A poll drains the mailbox: GET /signals/:clientId with a non-empty
    clientId returns, key by key, the message stored under each key that
    matches the pattern of the client, deletes exactly those keys, leaves
    every other key, record and set as it was, and an immediate second poll
    returns nothing. *)
Theorem getSignals_drains (clientId : string) (st : Store) :
  clientId ≠ EmptyString ->
  let pattern := signalPattern clientId in
  let keys := redis_keys (signalKeys st) pattern in
  exists msgs st',
    getSignals clientId st = (inr msgs, st')
    /\ Forall2 (fun k msg => redis_get (signalKeys st) k = Some msg) keys msgs
    /\ (forall k, signalKeys st' !! k
                  = if stringmatch pattern k then None else signalKeys st !! k)
    /\ peerKeys st' = peerKeys st /\ setKeys st' = setKeys st
    /\ getSignals clientId st' = (inr [], st').
Proof.
  intros Hid pattern keys.
  assert (truthy_str (Some clientId) = true) as Htruthy by now destruct clientId.
  assert (NoDup keys) as Hnd.
  { apply NoDup_filter, NoDup_fst_map_to_list. }
  assert (forall k, k ∈ keys -> is_Some (signalKeys st !! k)) as Hall.
  { intros k Hk. now apply redis_keys_lookup in Hk as [? _]. }
  destruct (drain_fold keys [] (signalKeys st) Hnd Hall) as ((msgs & H1 & H2) & H3).
  cbn [app] in H1.
  assert (forall k, (foldl drainKey ([], signalKeys st) keys).2 !! k
                    = if stringmatch pattern k then None else signalKeys st !! k)
    as Hlk.
  { intros k. rewrite H3. destruct (decide (k ∈ keys)) as [Hin|Hnin].
    - apply redis_keys_lookup in Hin as [_ ->]. reflexivity.
    - destruct (stringmatch pattern k) eqn:Hmatch; [|reflexivity].
      destruct (signalKeys st !! k) as [e|] eqn:He; [|reflexivity].
      exfalso. apply Hnin. apply redis_keys_lookup. split; [eauto | assumption]. }
  exists msgs, (withSignalKeys st (foldl drainKey ([], signalKeys st) keys).2).
  split.
  { unfold getSignals. rewrite Htruthy. cbn [negb]. fold pattern keys.
    now rewrite H1. }
  split; [exact H2|]. split; [exact Hlk|]. split; [reflexivity|].
  split; [reflexivity|].
  unfold getSignals. rewrite Htruthy. cbn [negb withSignalKeys signalKeys].
  fold pattern.
  assert (redis_keys (foldl drainKey ([], signalKeys st) keys).2 pattern = [])
    as ->.
  { apply elem_of_nil_inv. intros k Hin.
    apply redis_keys_lookup in Hin as [[e He] Hmatch].
    rewrite Hlk, Hmatch in He. discriminate. }
  cbn [foldl fst snd]. reflexivity.
Qed.

(** Two offers wait for B and one for C; B polls. *)
Lemma getSignals_drains_witness :
  let offer to := mkSignalRequest (Some "offer") (Some to) (Some "sdp") in
  let st := (signal (Some (mkUser 9 "c")) 7 7 (offer "C")
              (signal (Some (mkUser 8 "b")) 6 6 (offer "B")
                (signal (Some (mkUser 7 "a")) 5 5 (offer "B") emptyStore).2).2).2 in
  exists msgs st',
    getSignals "B" st = (inr msgs, st')
    /\ length msgs = 2%nat
    /\ is_Some (signalKeys st' !! "signal:C:9:7")
    /\ getSignals "B" st' = (inr [], st').
Proof.
  intros offer st.
  destruct (getSignals_drains "B" st ltac:(discriminate))
    as (msgs & st' & Hrun & Hmsgs & Hlk & _ & _ & Hagain).
  exists msgs, st'. split; [exact Hrun|]. split; [|split; [|exact Hagain]].
  - apply Forall2_length in Hmsgs. rewrite <- Hmsgs. vm_compute. reflexivity.
  - rewrite Hlk. vm_compute. eauto.
Defined.

Lemma glob_literal_prefix_inv (pre rest s : string) :
  globFree pre = true -> glob (pre +:+ rest) s = true ->
  exists s', s = pre +:+ s' /\ glob rest s' = true.
Proof.
  revert s. induction pre as [|a pre IH]; intros s Hfree H.
  - now exists s.
  - apply globFree_cons in Hfree as [(H1 & H2 & H3 & H4) Hfree].
    rewrite append_cons in H. destruct s as [|c s].
    + cbn [glob all_stars] in H. rewrite H1 in H. discriminate.
    + cbn [glob] in H. rewrite H1, H2, H3, H4 in H.
      apply andb_true_iff in H as [Hac H].
      apply Ascii.eqb_eq in Hac as ->.
      destruct (IH s Hfree H) as (s' & -> & Hs').
      exists s'. split; [reflexivity | assumption].
Qed.

(** X16. What a poll collects: for a clientId without the characters
    [*], [?], [[] and [\], the pattern of GET /signals/:clientId matches a
    key exactly when the key starts with [signal:<clientId>:]. *)
Theorem signalPattern_matches_prefix (clientId key : string) :
  globFree clientId = true ->
  stringmatch (signalPattern clientId) key = true <->
  exists tail, key = "signal:" +:+ clientId +:+ ":" +:+ tail.
Proof.
  intros Hfree. unfold signalPattern. split.
  - intros H. destruct key as [|c key].
    { cbn in H. apply bool_decide_eq_true in H. discriminate. }
    change (glob ("signal:" +:+ clientId +:+ ":" +:+ "*") (String c key) = true) in H.
    apply glob_literal_prefix_inv in H as (s1 & -> & H); [|reflexivity].
    apply glob_literal_prefix_inv in H as (s2 & -> & H); [|assumption].
    apply glob_literal_prefix_inv in H as (s3 & -> & H); [|reflexivity].
    now exists s3.
  - intros [tail ->].
    change (glob ("signal:" +:+ clientId +:+ ":" +:+ "*")
                 ("signal:" +:+ clientId +:+ ":" +:+ tail) = true).
    rewrite (glob_literal_prefix "signal:") by reflexivity.
    rewrite (glob_literal_prefix clientId) by assumption.
    rewrite (glob_literal_prefix ":") by reflexivity.
    now destruct tail.
Qed.

(** The mailbox of B holds what is addressed to B, and also what is
    addressed to a recipient whose id starts with [B:]. *)
Lemma signalPattern_matches_prefix_witness :
  stringmatch (signalPattern "B") (signalKey "B" (FromId 7) 5) = true
  /\ stringmatch (signalPattern "B") (signalKey "B:2" (FromId 7) 5) = true
  /\ stringmatch (signalPattern "B") (signalKey "Bob" (FromId 7) 5) = false.
Proof.
  split; [|split].
  - apply signalPattern_matches_prefix; [reflexivity|]. now exists "7:5".
  - apply signalPattern_matches_prefix; [reflexivity|]. now exists "2:7:5".
  - destruct (stringmatch (signalPattern "B") (signalKey "Bob" (FromId 7) 5))
      eqn:H; [|reflexivity].
    apply signalPattern_matches_prefix in H as [tail H]; [|reflexivity].
    vm_compute in H. discriminate.
Defined.

(** X17. Presence lapses: after an accepted announce, POST /complete for
    the same peer succeeds as long as fewer than PEER_TTL seconds have gone
    by, and answers NotFound, changing nothing, once PEER_TTL seconds or
    more have gone by without another announce. *)
Theorem announce_presence_window (PEER_TTL now later d : Z)
    (req : AnnounceRequest) (st : Store) :
  0 < PEER_TTL -> announceValid req = true ->
  let mid := default "" (ar_manifestId req) in
  let pid := default "" (ar_clientId req) in
  let st1 := elapse d (announce PEER_TTL now req st).2 in
  (d < PEER_TTL ->
   exists st2, markComplete PEER_TTL later mid pid st1 = (inr true, st2))
  /\ (PEER_TTL <= d ->
      markComplete PEER_TTL later mid pid st1 = (inl NotFound, st1)).
Proof.
  intros Hpos Hvalid mid pid st1.
  assert (peerKeys st1 !! PEER_KEY mid pid
          = if 0 <? PEER_TTL - d
            then Some (announcedPeer now req, PEER_TTL - d) else None) as Hlk.
  { subst st1. rewrite (announce_store PEER_TTL now req st Hpos Hvalid).
    cbn [snd elapse peerKeys announcedPeer peerId manifestId]. fold mid pid.
    unfold redis_elapse. rewrite lookup_omap, lookup_insert_eq. reflexivity. }
  unfold markComplete, redis_get. rewrite Hlk. split.
  - intros Hd. destruct (Z.ltb_spec 0 (PEER_TTL - d)); [|lia].
    cbn [fmap option_fmap option_map fst].
    rewrite redis_setex_pos by assumption. eauto.
  - intros Hd. now destruct (Z.ltb_spec 0 (PEER_TTL - d)); [lia|].
Qed.

Lemma announce_presence_window_witness :
  let req := mkAnnounceRequest (Some "A") (Some "M") (Some "ff") None None None None in
  (exists st2, markComplete 300 5000 "M" "A"
                 (elapse 299 (announce 300 1000 req emptyStore).2) = (inr true, st2))
  /\ markComplete 300 5000 "M" "A" (elapse 300 (announce 300 1000 req emptyStore).2)
     = (inl NotFound, elapse 300 (announce 300 1000 req emptyStore).2).
Proof.
  intros req. split.
  - apply (announce_presence_window 300 1000 5000 299 req emptyStore);
      [lia | reflexivity | lia].
  - apply (announce_presence_window 300 1000 5000 300 req emptyStore);
      [lia | reflexivity | lia].
Defined.

(** ** redis.ts: the periodic cleanup *)

Lemma redis_smembers_lookup (m1 m2 : gmap string (list string * option Z))
    (key : string) :
  m1 !! key = m2 !! key -> redis_smembers m1 key = redis_smembers m2 key.
Proof. unfold redis_smembers. now intros ->. Qed.

Lemma cleanupMember_fold (st : Store) (setKey : string) (peerIds : list string)
    (m : gmap string (list string * option Z)) :
  let live pid :=
    is_Some (peerKeys st !! PEER_KEY (manifestOfSetKey setKey) pid) in
  let out := foldl (cleanupMember st setKey) m peerIds in
  redis_smembers out setKey
    = filter (fun x => x ∉ peerIds \/ live x) (redis_smembers m setKey)
  /\ (forall key, key ≠ setKey -> out !! key = m !! key).
Proof.
  cbv zeta. revert m. induction peerIds as [|pid ids IH]; intros m.
  - cbn [foldl]. split; [|reflexivity].
    symmetry. induction (redis_smembers _ _) as [|x l IHl]; [reflexivity|].
    rewrite filter_cons_True by (left; apply not_elem_of_nil). now rewrite IHl.
  - cbn [foldl]. destruct (IH (cleanupMember st setKey m pid)) as (H1 & H2).
    rewrite H1. clear H1 IH. unfold cleanupMember in *. unfold redis_exists in *.
    destruct (decide (is_Some (peerKeys st
                !! PEER_KEY (manifestOfSetKey setKey) pid))) as [Hl|Hd].
    + rewrite bool_decide_eq_true_2 in * by assumption. cbn [negb] in *.
      split; [|exact H2].
      apply list_filter_iff. intros x. rewrite elem_of_cons. split.
      * intros [Hx|Hx]; [|now right].
        destruct (decide (x = pid)) as [->|Hne]; [now right|]. left. tauto.
      * intros [Hx|Hx]; [left; tauto | now right].
    + rewrite bool_decide_eq_false_2 in * by assumption. cbn [negb] in *.
      split.
      * rewrite redis_srem_smembers, list_filter_filter.
        apply list_filter_iff. intros x. rewrite elem_of_cons. split.
        -- intros [[Hx|Hx] Hne]; [left; tauto | now right].
        -- intros [Hx|Hx].
           ++ split; [left; tauto | tauto].
           ++ split; [now right|]. now intros ->.
      * intros key Hkey. rewrite H2 by assumption.
        now apply redis_srem_other.
Qed.

Lemma cleanupSet_spec (st : Store) (setKey : string)
    (m : gmap string (list string * option Z)) :
  redis_smembers (cleanupSet st m setKey) setKey
    = filter (fun pid =>
                is_Some (peerKeys st !! PEER_KEY (manifestOfSetKey setKey) pid))
        (redis_smembers m setKey)
  /\ (forall key, key ≠ setKey -> cleanupSet st m setKey !! key = m !! key).
Proof.
  unfold cleanupSet.
  destruct (cleanupMember_fold st setKey (redis_smembers m setKey) m) as (H1 & H2).
  split; [|exact H2]. rewrite H1.
  apply list_filter_iff_elem. intros x Hx. tauto.
Qed.

Lemma cleanupSets_fold (st : Store) (keys : list string)
    (m : gmap string (list string * option Z)) :
  NoDup keys ->
  let out := foldl (cleanupSet st) m keys in
  (forall key, key ∈ keys ->
     redis_smembers out key
       = filter (fun pid =>
                   is_Some (peerKeys st !! PEER_KEY (manifestOfSetKey key) pid))
           (redis_smembers m key))
  /\ (forall key, key ∉ keys -> out !! key = m !! key).
Proof.
  cbv zeta. revert m. induction keys as [|k0 keys IH]; intros m Hnd.
  - cbn [foldl]. split; [|reflexivity].
    intros key Hin. now apply elem_of_nil in Hin.
  - apply NoDup_cons in Hnd as [Hk0 Hnd]. cbn [foldl].
    destruct (IH (cleanupSet st m k0) Hnd) as (H1 & H2).
    destruct (cleanupSet_spec st k0 m) as (H3 & H4).
    split.
    + intros key [->|Hin]%elem_of_cons.
      * rewrite (redis_smembers_lookup _ (cleanupSet st m k0)) by now apply H2.
        exact H3.
      * rewrite H1 by assumption. f_equal. apply redis_smembers_lookup.
        apply H4. intros ->. contradiction.
    + intros key Hnin. rewrite H2 by (intros ?; apply Hnin; now right).
      apply H4. intros ->. apply Hnin. left.
Qed.

Lemma js_split_no_sep (c : ascii) (s : string) :
  hasChar c s = false -> js_split c s = [s].
Proof.
  induction s as [|a s IH]; [reflexivity|].
  intros [Ha Hs]%hasChar_cons_false. cbn [js_split]. rewrite Ha.
  now rewrite (IH Hs).
Qed.

Lemma js_split_first (c : ascii) (a b : string) :
  hasChar c a = false -> js_split c (a +:+ String c b) = a :: js_split c b.
Proof.
  induction a as [|x a IH]; intros Ha.
  - change (EmptyString +:+ String c b) with (String c b).
    cbn [js_split]. now rewrite Ascii.eqb_refl.
  - apply hasChar_cons_false in Ha as [Hx Ha].
    rewrite append_cons. cbn [js_split]. rewrite Hx. now rewrite (IH Ha).
Qed.

(** The effect of the cleanup on every key. *)
Lemma cleanupExpiredPeers_effect (st : Store) :
  let st' := cleanupExpiredPeers st in
  peerKeys st' = peerKeys st /\ signalKeys st' = signalKeys st
  /\ (forall setKey, stringmatch "peers:*" setKey = false ->
        setKeys st' !! setKey = setKeys st !! setKey)
  /\ (forall setKey, stringmatch "peers:*" setKey = true ->
        redis_smembers (setKeys st') setKey
        = filter (fun pid =>
                    is_Some (peerKeys st
                               !! PEER_KEY (manifestOfSetKey setKey) pid))
            (redis_smembers (setKeys st) setKey)).
Proof.
  cbv zeta. unfold cleanupExpiredPeers.
  cbn [withSetKeys peerKeys signalKeys setKeys].
  set (keys := redis_keys_sets (setKeys st) "peers:*").
  assert (NoDup keys) as Hnd by apply NoDup_filter, NoDup_fst_map_to_list.
  assert (forall key, key ∈ keys <->
            is_Some (setKeys st !! key) /\ stringmatch "peers:*" key = true)
    as Hkeys.
  { intros key. unfold keys, redis_keys_sets.
    rewrite list_elem_of_filter, list_elem_of_fmap. split.
    - intros [Hmatch ([k v] & -> & Hin)].
      apply elem_of_map_to_list in Hin. split; [now exists v|].
      now apply Is_true_true.
    - intros [[v Hv] Hmatch]. split; [now apply Is_true_true|].
      exists (key, v). split; [reflexivity|]. now apply elem_of_map_to_list. }
  destruct (cleanupSets_fold st keys (setKeys st) Hnd) as (H1 & H2).
  assert (forall setKey, stringmatch "peers:*" setKey = true ->
            redis_smembers (foldl (cleanupSet st) (setKeys st) keys) setKey
            = filter (fun pid =>
                        is_Some (peerKeys st
                                   !! PEER_KEY (manifestOfSetKey setKey) pid))
                (redis_smembers (setKeys st) setKey)) as Hin.
  { intros setKey Hmatch. destruct (decide (setKey ∈ keys)) as [Hk|Hk].
    - now apply H1.
    - rewrite (redis_smembers_lookup _ (setKeys st)) by now apply H2.
      assert (setKeys st !! setKey = None) as Hnone.
      { destruct (setKeys st !! setKey) eqn:He; [|reflexivity].
        exfalso. apply Hk, Hkeys. rewrite He. eauto. }
      unfold redis_smembers. now rewrite Hnone. }
  split; [reflexivity|]. split; [reflexivity|]. split; [|exact Hin].
  intros setKey Hmatch. apply H2. intros Hk%Hkeys. destruct Hk. congruence.
Qed.

(** X18. The periodic cleanup only prunes memberships: it leaves peer
    records and signals alone, touches no key outside the pattern [peers:*],
    and in each set under that pattern keeps, in their order, exactly the
    members for which a record is stored under the manifestId it reads from
    the set key (the piece between the first and the second colon). For a
    manifestId without colon that is the manifest itself: the members kept
    are those with a stored record. *)
Theorem cleanupExpiredPeers_prunes (st : Store) :
  let st' := cleanupExpiredPeers st in
  peerKeys st' = peerKeys st /\ signalKeys st' = signalKeys st
  /\ (forall setKey, stringmatch "peers:*" setKey = false ->
        setKeys st' !! setKey = setKeys st !! setKey)
  /\ (forall setKey, stringmatch "peers:*" setKey = true ->
        redis_smembers (setKeys st') setKey
        = filter (fun pid =>
                    is_Some (peerKeys st
                               !! PEER_KEY (manifestOfSetKey setKey) pid))
            (redis_smembers (setKeys st) setKey))
  /\ (forall mid, hasChar ":" mid = false ->
        redis_smembers (setKeys st') (PEERS_SET_KEY mid)
        = filter (fun pid => is_Some (peerKeys st !! PEER_KEY mid pid))
            (redis_smembers (setKeys st) (PEERS_SET_KEY mid))).
Proof.
  cbv zeta.
  destruct (cleanupExpiredPeers_effect st) as (Hpeers & Hsignals & Hout & Hin).
  split; [exact Hpeers|]. split; [exact Hsignals|].
  split; [exact Hout|]. split; [exact Hin|].
  intros mid Hmid.
  assert (manifestOfSetKey (PEERS_SET_KEY mid) = mid) as Hseg.
  { unfold manifestOfSetKey, PEERS_SET_KEY.
    change ("peers:" +:+ mid) with ("peers" +:+ String ":" mid).
    rewrite js_split_first by reflexivity.
    now rewrite js_split_no_sep by assumption. }
  rewrite Hin; [now rewrite Hseg|].
  unfold PEERS_SET_KEY.
  change (glob ("peers:" +:+ "*") ("peers:" +:+ mid) = true).
  rewrite (glob_literal_prefix "peers:") by reflexivity.
  now destruct mid.
Qed.

(** Member [ghost] of manifest M has no record and goes; A stays. *)
Lemma cleanupExpiredPeers_prunes_witness :
  let req := mkAnnounceRequest (Some "A") (Some "M") (Some "ff") None None None None in
  let st0 := (announce 300 1000 req emptyStore).2 in
  let st := withSetKeys st0
              {[ "peers:M"%string := (["ghost"; "A"]%string, Some 300) ]} in
  redis_smembers (setKeys (cleanupExpiredPeers st)) "peers:M" = ["A"].
Proof.
  intros req st0 st.
  destruct (cleanupExpiredPeers_prunes st) as (_ & _ & _ & _ & H).
  etransitivity; [apply (H "M"); reflexivity|]. vm_compute. reflexivity.
Defined.

(** X19. The cleanup reads the manifestId of a set as the piece of the set
    key between its first two colons. For a manifestId [a:rest] it therefore
    judges the members of [peers:a:rest] by the records of manifest [a]: a
    member stays exactly when a record is stored under [peer:a:<member>],
    whatever is stored for it under manifest [a:rest]. *)
Theorem cleanupExpiredPeers_colon_manifest (st : Store) (a rest : string) :
  hasChar ":" a = false ->
  redis_smembers (setKeys (cleanupExpiredPeers st))
    (PEERS_SET_KEY (a +:+ ":" +:+ rest))
  = filter (fun pid => is_Some (peerKeys st !! PEER_KEY a pid))
      (redis_smembers (setKeys st) (PEERS_SET_KEY (a +:+ ":" +:+ rest))).
Proof.
  intros Ha.
  destruct (cleanupExpiredPeers_effect st) as (_ & _ & _ & H).
  assert (manifestOfSetKey (PEERS_SET_KEY (a +:+ ":" +:+ rest)) = a) as Hseg.
  { unfold manifestOfSetKey, PEERS_SET_KEY.
    change ("peers:" +:+ a +:+ ":" +:+ rest)
      with ("peers" +:+ String ":" (a +:+ String ":" rest)).
    rewrite js_split_first by reflexivity.
    now rewrite js_split_first by assumption. }
  rewrite H; [now rewrite Hseg|].
  unfold PEERS_SET_KEY.
  change (glob ("peers:" +:+ "*") ("peers:" +:+ a +:+ ":" +:+ rest) = true).
  rewrite (glob_literal_prefix "peers:") by reflexivity.
  now destruct (a +:+ ":" +:+ rest).
Qed.

(** Peer c of manifest [a:b] has its record, and the cleanup removes it
    from the set all the same. *)
Lemma cleanupExpiredPeers_colon_manifest_witness :
  let req := mkAnnounceRequest (Some "c") (Some "a:b") (Some "ff") None None None None in
  let st := (announce 300 1000 req emptyStore).2 in
  is_Some (peerKeys st !! PEER_KEY "a:b" "c")
  /\ redis_smembers (setKeys st) (PEERS_SET_KEY "a:b") = ["c"]
  /\ redis_smembers (setKeys (cleanupExpiredPeers st)) (PEERS_SET_KEY "a:b") = [].
Proof.
  intros req st. split; [vm_compute; eauto|]. split; [vm_compute; reflexivity|].
  etransitivity;
    [apply (cleanupExpiredPeers_colon_manifest st "a" "b"); reflexivity|].
  vm_compute. reflexivity.
Defined.

(** ** middleware/auth.ts *)

Section auth_properties.

Variable jwt_verify : string -> string -> VerifyResult.

(** X20. The middleware hands a request on only after a verification: if
    [authenticateToken] calls [next] with a user, then the Authorization
    header has a non-empty second piece between spaces, JWT_SECRET is set
    and has at least 32 characters, and [jwt.verify] accepted that piece
    under that secret with that user as payload. *)
Theorem authenticateToken_next (JWT_SECRET authHeader : option string)
    (user : User) :
  authenticateToken jwt_verify JWT_SECRET authHeader = Next user ->
  exists header token secret,
    authHeader = Some header
    /\ js_split " " header !! 1%nat = Some token /\ token ≠ EmptyString
    /\ JWT_SECRET = Some secret /\ (32 <= String.length secret)%nat
    /\ jwt_verify token secret = Verified user.
Proof.
  unfold authenticateToken, getJWTSecret. cbv zeta.
  destruct authHeader as [[|h0 header]|]; cbn [truthy_str negb];
    try (intros Hx; discriminate Hx).
  change (default EmptyString (Some (String h0 header))) with (String h0 header).
  destruct (js_split " " (String h0 header) !! 1%nat) as [[|t0 token]|] eqn:Htok;
    cbn [truthy_str negb]; try (intros Hx; discriminate Hx).
  change (default EmptyString (Some (String t0 token))) with (String t0 token).
  destruct JWT_SECRET as [[|s0 secret]|]; cbn [negb orb];
    try (intros Hx; discriminate Hx).
  destruct (Nat.ltb_spec (String.length (String s0 secret)) 32);
    [intros Hx; discriminate Hx|].
  destruct (jwt_verify (String t0 token) (String s0 secret)) eqn:Hv;
    try (intros Hx; discriminate Hx).
  intros [= ->]. exists (String h0 header), (String t0 token), (String s0 secret).
  now repeat split.
Qed.

(** X21. How the header is read: a header without any space, an empty
    header and a missing header are answered with 401; from a header
    [<scheme> <token>], with a scheme (of any spelling, even empty) and a
    non-empty token that hold no space, the token alone goes to
    [jwt.verify], whose verdict decides between [next], 403 Token expired
    and 403 Invalid token; a JWT_SECRET that is missing or shorter than 32
    characters gives 403 Invalid token. *)
Theorem authenticateToken_header (JWT_SECRET : option string) :
  authenticateToken jwt_verify JWT_SECRET None = Respond 401 "No token provided"
  /\ (forall header, hasChar " " header = false ->
        authenticateToken jwt_verify JWT_SECRET (Some header)
        = Respond 401 "No token provided")
  /\ (forall scheme token,
        hasChar " " scheme = false -> hasChar " " token = false ->
        token ≠ EmptyString ->
        authenticateToken jwt_verify JWT_SECRET (Some (scheme +:+ " " +:+ token))
        = match getJWTSecret JWT_SECRET with
          | Some secret =>
              match jwt_verify token secret with
              | Verified user => Next user
              | TokenExpiredError => Respond 403 "Token expired"
              | OtherVerifyError => Respond 403 "Invalid token"
              end
          | None => Respond 403 "Invalid token"
          end).
Proof.
  split; [reflexivity|]. split.
  - intros header Hsp. unfold authenticateToken.
    destruct header as [|h0 header]; [reflexivity|].
    cbn [truthy_str default].
    change (from_option id EmptyString (Some (String h0 header)))
      with (String h0 header).
    now rewrite js_split_no_sep by assumption.
  - intros scheme token Hs Ht Hne. unfold authenticateToken.
    assert (truthy_str (Some (scheme +:+ " " +:+ token)) = true) as ->.
    { now destruct scheme. }
    change (default EmptyString (Some (scheme +:+ " " +:+ token)))
      with (scheme +:+ String " " token).
    rewrite js_split_first by assumption.
    rewrite js_split_no_sep by assumption. cbn [lookup list_lookup].
    destruct token as [|t0 token]; [contradiction|].
    reflexivity.
Qed.

End auth_properties.

(** A verifier that accepts the token [good] under any secret. *)
Lemma authenticateToken_header_witness :
  let verify token (secret : string) :=
    if bool_decide (token = "good"%string) then Verified (mkUser 7 "alice")
    else OtherVerifyError in
  let secret := Some "0123456789abcdef0123456789abcdef"%string in
  authenticateToken verify secret (Some "Bearer good") = Next (mkUser 7 "alice")
  /\ authenticateToken verify secret (Some "Bearer bad") = Respond 403 "Invalid token"
  /\ authenticateToken verify (Some "short"%string) (Some "Bearer good")
     = Respond 403 "Invalid token"
  /\ authenticateToken verify secret (Some "Bearer") = Respond 401 "No token provided".
Proof.
  intros verify secret.
  destruct (authenticateToken_header verify secret) as (_ & Hno & Hyes).
  destruct (authenticateToken_header verify (Some "short"%string)) as (_ & _ & Hshort).
  split; [|split; [|split]].
  - apply (Hyes "Bearer"%string "good"%string); [reflexivity | reflexivity | discriminate].
  - apply (Hyes "Bearer"%string "bad"%string); [reflexivity | reflexivity | discriminate].
  - apply (Hshort "Bearer"%string "good"%string); [reflexivity | reflexivity | discriminate].
  - apply (Hno "Bearer"%string). reflexivity.
Defined.

Lemma authenticateToken_next_witness :
  let verify token (secret : string) :=
    if bool_decide (token = "good"%string) then Verified (mkUser 7 "alice")
    else OtherVerifyError in
  let secret := "0123456789abcdef0123456789abcdef"%string in
  exists header token,
    js_split " " header !! 1%nat = Some token
    /\ verify token secret = Verified (mkUser 7 "alice").
Proof.
  intros verify secret.
  destruct (authenticateToken_next verify (Some secret) (Some "Bearer good"%string)
              (mkUser 7 "alice") eq_refl)
    as (header & token & secret' & _ & Htok & _ & [= <-] & _ & Hv).
  now exists header, token.
Defined.

(** ** The ranking of POST /peers *)

(** X22. Truncation keeps the best: for a non-negative limit [n], the first
    [n] entries of the sorted scores and the entries left out together are a
    rearrangement of the input, at most [n] entries are kept, and no entry
    left out has a higher score than an entry kept. *)
Theorem top_scores_are_best (scores : list PeerScore) (n : Z) :
  0 <= n ->
  let top := js_slice0 (sortPeersByScore scores) n in
  let rest := drop (Z.to_nat n) (sortPeersByScore scores) in
  top ++ rest ≡ₚ scores
  /\ (length top <= Z.to_nat n)%nat
  /\ (forall kept left, kept ∈ top -> left ∈ rest ->
        (ps_score left <= ps_score kept)%Q).
Proof.
  intros Hn top rest. subst top rest. unfold js_slice0.
  destruct (Z.ltb_spec n 0); [lia|].
  rewrite take_drop. split; [apply sortPeersByScore_Permutation|]. split.
  - rewrite length_take. lia.
  - intros kept left Hk Hl.
    pose proof (sortPeersByScore_Sorted scores) as Hs.
    apply Sorted_StronglySorted in Hs.
    2:{ intros a b c Hab Hbc. eapply scoreGe_trans; eauto. }
    rewrite <- (take_drop (Z.to_nat n) (sortPeersByScore scores)) in Hs.
    exact (StronglySorted_app_1_elem_of _ _ _ _ _ Hs Hk Hl).
Qed.

Lemma top_scores_are_best_witness :
  let s id (q : Q) := mkPeerScore id q [] false in
  let scores := [s "a" 5%Q; s "b" 130%Q; s "c" 105%Q] in
  map ps_peerId (js_slice0 (sortPeersByScore scores) 2) = ["b"; "c"]
  /\ (length (js_slice0 (sortPeersByScore scores) 2) <= 2)%nat.
Proof.
  intros s scores.
  destruct (top_scores_are_best scores 2 ltac:(lia)) as (_ & Hlen & _).
  split; [vm_compute; reflexivity | exact Hlen].
Defined.
